(** * schlemiel.cpp: the two string-building benchmarks and their timer

    A shallow embedding of [src/schlemiel.cpp].  The file has three parts:

    - [Clock]: [struct timespec], the subtraction [diff] and the stream
      operator that prints a duration;
    - [Mem]: the storage that starts at [STRBUFFER], the C library's
      [strncat] on it, and the two benchmark functions;
    - [Runner]: [getTime], [timeOperation] and [main]; the statement that
      the source of [main] leaves unfinished is a parameter.

    Integers of type [long] and [time_t] are 64-bit two's complement values,
    modelled as [Z] with the wrap-around written out.  Loop counters of
    type [int] never leave the interval [0, 10000] and are modelled as
    [nat]. *)

From Stdlib Require Import ZArith Lia Ascii String DecimalString.
From Stdlib Require Import DecimalPos DecimalZ.
From stdpp Require Import base tactics list.

Set Warnings "-abstract-large-number".

Local Open Scope Z_scope.

(* ===================================================================== *)
(** ** 64-bit signed arithmetic *)
(* ===================================================================== *)

Module Long.

Definition MIN : Z := - 2 ^ 63.
Definition MAX : Z := 2 ^ 63 - 1.

(** The value a 64-bit two's complement register holds for [z]. *)
Definition wrap (z : Z) : Z := (z + 2 ^ 63) mod 2 ^ 64 - 2 ^ 63.

Definition add (a b : Z) : Z := wrap (a + b).
Definition sub (a b : Z) : Z := wrap (a - b).
Definition mul (a b : Z) : Z := wrap (a * b).
(** C++ division truncates towards zero. *)
Definition div (a b : Z) : Z := wrap (Z.quot a b).

Definition fits (z : Z) : Prop := MIN <= z <= MAX.

End Long.

(* ===================================================================== *)
(** ** The clock utility *)
(* ===================================================================== *)

Module Clock.

(** [struct timespec] of <time.h>. *)
Record timespec : Type := mkTimespec { tv_sec : Z; tv_nsec : Z }.

Definition NSEC_PER_SEC : Z := 1000000000.

(** [timespec diff(const timespec& start, const timespec& end)]. *)
Definition diff (start end_ : timespec) : timespec :=
  if Long.sub (tv_nsec end_) (tv_nsec start) <? 0 then
    {| tv_sec := Long.sub (Long.sub (tv_sec end_) (tv_sec start)) 1;
       tv_nsec := Long.sub (Long.add 1000000000 (tv_nsec end_))
                           (tv_nsec start) |}
  else
    {| tv_sec := Long.sub (tv_sec end_) (tv_sec start);
       tv_nsec := Long.sub (tv_nsec end_) (tv_nsec start) |}.

(** What [clock_gettime] hands out for a CPU-time clock: a non-negative
    number of whole seconds and a nanosecond part below one second. *)
Definition reading (t : timespec) : Prop :=
  0 <= tv_sec t <= Long.MAX /\ 0 <= tv_nsec t < NSEC_PER_SEC.

(** [end_] is not earlier than [start]. *)
Definition later (start end_ : timespec) : Prop :=
  tv_sec start < tv_sec end_
  \/ (tv_sec end_ = tv_sec start /\ tv_nsec start <= tv_nsec end_).

(** The borrow rule over the integers, with no machine arithmetic. *)
Definition borrow_rule (start end_ : timespec) : timespec :=
  if tv_nsec end_ - tv_nsec start <? 0 then
    {| tv_sec := tv_sec end_ - tv_sec start - 1;
       tv_nsec := 1000000000 + tv_nsec end_ - tv_nsec start |}
  else
    {| tv_sec := tv_sec end_ - tv_sec start;
       tv_nsec := tv_nsec end_ - tv_nsec start |}.

(** Decimal rendering of a [long], as [operator<<(long)] prints it. *)
Definition dec (z : Z) : string := NilZero.string_of_int (Z.to_int z).

(** The three numbers the stream operator prints. *)
Definition timeSpecMS (t : timespec) : Z := Long.div (tv_nsec t) 1000000.
Definition remainder_ns (t : timespec) : Z :=
  Long.sub (tv_nsec t) (Long.mul (timeSpecMS t) 1000000).

(** [std::ostream& operator<<(std::ostream& os, const timespec& timeSpec)]:
    the characters it appends to the stream. *)
Definition show (timeSpec : timespec) : string :=
  (dec (tv_sec timeSpec) ++ "s " ++ dec (timeSpecMS timeSpec) ++ "ms "
     ++ dec (remainder_ns timeSpec) ++ "ns")%string.

(** A time as one number of nanoseconds. *)
Definition nanoseconds (t : timespec) : Z :=
  tv_sec t * 1000000000 + tv_nsec t.

(** The characters a printed number is made of: the sign and the ten
    digits. *)
Definition numeric (c : ascii) : bool :=
  (Ascii.eqb c "-"
   || ((48 <=? N_of_ascii c)%N && (N_of_ascii c <=? 57)%N))%bool.

Fixpoint all_numeric (text : string) : bool :=
  match text with
  | EmptyString => true
  | String c rest => (numeric c && all_numeric rest)%bool
  end.

End Clock.

(* ===================================================================== *)
(** ** A state monad with faults *)
(* ===================================================================== *)

(** How a computation on a state of type [St] ends: normally, with a value
    and the new state; with an access to an address that is not part of the
    modelled storage; or because a loop of the model ran out of fuel (the
    theorems below show that this never happens). *)
Inductive outcome (St A : Type) : Type :=
| Ok (a : A) (s : St)
| Fault (addr : nat)
| Fuel.
Arguments Ok {St A} a s.
Arguments Fault {St A} addr.
Arguments Fuel {St A}.

Definition M (St A : Type) : Type := St -> outcome St A.

Definition ret {St A} (a : A) : M St A := fun s => Ok a s.

Definition bind {St A B} (m : M St A) (k : A -> M St B) : M St B :=
  fun s =>
    match m s with
    | Ok a s' => k a s'
    | Fault addr => Fault addr
    | Fuel => Fuel
    end.

Notation "'let*' x ':=' m 'in' k" := (bind m (fun x => k))
  (at level 10, x name, m at level 100, k at level 200).
Notation "m ;; k" := (bind m (fun _ => k))
  (at level 100, k at level 200, right associativity).

(** [for (int i = start; i < bound; i = next i) body].  The guard is tested
    before every round, as in the source; [fuel] bounds the number of
    tests. *)
Fixpoint for_lt {St} (fuel : nat) (i bound : nat) (next : nat -> nat)
    (body : nat -> M St unit) : M St unit :=
  match fuel with
  | O => fun _ => Fuel
  | S fuel' =>
      if (i <? bound)%nat
      then body i ;; for_lt fuel' (next i) bound next body
      else ret tt
  end.

(** A loop whose counter grows needs at most [bound - start] rounds and
    one more test. *)
Definition for_ {St} (start bound : nat) (next : nat -> nat)
    (body : nat -> M St unit) : M St unit :=
  for_lt (S (bound - start)) start bound next body.

(** The states in which the loop that started with counter [i0] in state
    [s0] tests its guard: at the start, and after every round that the
    guard let through and that ended normally. *)
Inductive loop_head {St} (bound : nat) (next : nat -> nat)
    (body : nat -> M St unit) (i0 : nat) (s0 : St) : nat -> St -> Prop :=
| head_first : loop_head bound next body i0 s0 i0 s0
| head_next i s s' :
    loop_head bound next body i0 s0 i s ->
    (i <? bound)%nat = true ->
    body i s = Ok tt s' ->
    loop_head bound next body i0 s0 (next i) s'.

(* ===================================================================== *)
(** ** The buffer and the benchmark functions *)
(* ===================================================================== *)

Module Mem.

(** [#define STRBUFLEN 1024] *)
Definition STRBUFLEN : nat := 1024.

Definition NUL : ascii := "000"%char.

(** One access to the storage, by its offset from [STRBUFFER]. *)
Inductive access : Type :=
| Load (a : nat)
| Store (a : nat).

(** The storage that starts at the address of [STRBUFFER]: cells
    [0 .. STRBUFLEN-1] are the array [static char STRBUFFER[STRBUFLEN]],
    the cells after them are whatever the linker placed behind it.  The
    trace lists every access, the latest first. *)
Record machine : Type := mkMachine {
  mem : list ascii;
  trace : list access
}.

Definition load (a : nat) : M machine ascii := fun s =>
  match mem s !! a with
  | Some c => Ok c {| mem := mem s; trace := Load a :: trace s |}
  | None => Fault a
  end.

Definition store (a : nat) (c : ascii) : M machine unit := fun s =>
  if (a <? length (mem s))%nat
  then Ok tt {| mem := <[a:=c]> (mem s); trace := Store a :: trace s |}
  else Fault a.

(** The scan of [strlen(p)]: look at [p[len]], stop at the first NUL. *)
Fixpoint scan (fuel : nat) (p len : nat) : M machine nat :=
  match fuel with
  | O => fun _ => Fuel
  | S fuel' =>
      let* c := load (p + len) in
      if Ascii.eqb c NUL then ret len else scan fuel' p (S len)
  end.

(** [size_t strlen(const char *p)].  A scan that finds no NUL leaves the
    storage and faults, so one test per cell and one more suffice. *)
Definition strlen (p : nat) : M machine nat := fun s =>
  scan (S (length (mem s))) p 0 s.

(** The characters [strncat] takes from its source: at most [n], and
    none from the first NUL on. *)
Fixpoint taken (n : nat) (src : list ascii) : list ascii :=
  match n, src with
  | S n', c :: src' =>
      if Ascii.eqb c NUL then [] else c :: taken n' src'
  | _, _ => []
  end.

Fixpoint copy (a : nat) (cs : list ascii) : M machine unit :=
  match cs with
  | [] => ret tt
  | c :: cs' => store a c ;; copy (S a) cs'
  end.

(** [char *strncat(char *dest, const char *src, size_t n)] of <string.h>
    (ISO C, 7.24.3.2): find the end of the string at [dest], append at
    most [n] characters of [src] there, then always a terminating NUL.
    [n] bounds what is read from [src]; it says nothing about the room
    behind [dest].  The source is a string literal; a Rocq string holds
    its characters, and its end stands for the literal's terminator. *)
Definition strncat (dest : nat) (src : string) (n : nat)
  : M machine unit :=
  let* len := strlen dest in
  let cs := taken n (list_ascii_of_string src) in
  copy (dest + len) cs ;;
  store (dest + len + length cs) NUL.

(** The body of the inner loop of [inefficientStringConcat]. *)
Definition inefficient_step (i : nat) : M machine unit :=
  strncat 0 "Jo" STRBUFLEN ;;
  strncat 0 "Pa" STRBUFLEN ;;
  strncat 0 "Ge" STRBUFLEN ;;
  strncat 0 "Ri" STRBUFLEN.

(** The body of the outer loop of [inefficientStringConcat]. *)
Definition inefficient_round : M machine unit :=
  store 0 NUL ;;
  for_ 0 (STRBUFLEN / 8) S inefficient_step.

(** [void inefficientStringConcat()] *)
Definition inefficientStringConcat : M machine unit :=
  for_ 0 10000 S (fun j => inefficient_round).

(** The body of the inner loop of [efficientStringConcat]. *)
Definition efficient_step (i : nat) : M machine unit :=
  strncat (0 + i) "Jo" (STRBUFLEN - i) ;;
  strncat (0 + i + 2) "Pa" (STRBUFLEN - i) ;;
  strncat (0 + i + 4) "Ge" (STRBUFLEN - i) ;;
  strncat (0 + i + 6) "Ri" (STRBUFLEN - i).

(** The body of the outer loop of [efficientStringConcat]. *)
Definition efficient_round : M machine unit :=
  store 0 NUL ;;
  for_ 0 STRBUFLEN (fun i => i + 8)%nat efficient_step.

(** [void efficientStringConcat()] *)
Definition efficientStringConcat : M machine unit :=
  for_ 0 10000 S (fun j => efficient_round).

(** The bytes of the array [STRBUFFER] itself. *)
Definition STRBUFFER (s : machine) : list ascii := take STRBUFLEN (mem s).

(** The C string that starts at offset [p]: the cells before the first
    NUL. *)
Fixpoint upto_nul (l : list ascii) : list ascii :=
  match l with
  | [] => []
  | c :: l' => if Ascii.eqb c NUL then [] else c :: upto_nul l'
  end.
Definition cstring (p : nat) (s : machine) : list ascii :=
  upto_nul (drop p (mem s)).

(** ["JoPaGeRi"] repeated [k] times. *)
Definition JoPaGeRi : list ascii := list_ascii_of_string "JoPaGeRi".
Fixpoint pattern (k : nat) : list ascii :=
  match k with
  | O => []
  | S k' => JoPaGeRi ++ pattern k'
  end.

(** The stores of a trace. *)
Definition stored (a : nat) (s : machine) : Prop := In (Store a) (trace s).

(* --------------------------------------------------------------------- *)
(** *** Vocabulary of the specifications *)

(** No character of [cs] is the terminator. *)
Definition nul_free (cs : list ascii) : Prop := Forall (fun c => c <> NUL) cs.

(** The accesses of a walk over cells [a .. a+n-1], the latest first. *)
Definition loads (a n : nat) : list access := rev (Load <$> seq a n).
Definition stores (a n : nat) : list access := rev (Store <$> seq a n).

(** The accesses of one [strncat]: the scan from [dest] up to the
    terminator at [e], the stores of [k] characters and of the new
    terminator.  The latest access comes first. *)
Definition cat_trace (dest e k : nat) : list access :=
  Store (e + k) :: stores e k ++ loads dest (S (e - dest)).

(** The four tokens. *)
Definition Jo : list ascii := list_ascii_of_string "Jo".
Definition Pa : list ascii := list_ascii_of_string "Pa".
Definition Ge : list ascii := list_ascii_of_string "Ge".
Definition Ri : list ascii := list_ascii_of_string "Ri".

(** The accesses of one pass of each inner loop, the latest first. *)
Definition inefficient_step_trace (k : nat) : list access :=
  cat_trace 0 (8 * k + 6) 2 ++ cat_trace 0 (8 * k + 4) 2
    ++ cat_trace 0 (8 * k + 2) 2 ++ cat_trace 0 (8 * k) 2.

Definition efficient_step_trace (i : nat) : list access :=
  cat_trace (i + 6) (i + 6) 2 ++ cat_trace (i + 4) (i + 4) 2
    ++ cat_trace (i + 2) (i + 2) 2 ++ cat_trace i i 2.

(** The same accesses of the efficient pass, one by one and in the order
    in which they happen. *)
Definition efficient_step_accesses (i : nat) : list access :=
  [ Load i;       Store i;       Store (i + 1); Store (i + 2);
    Load (i + 2); Store (i + 2); Store (i + 3); Store (i + 4);
    Load (i + 4); Store (i + 4); Store (i + 5); Store (i + 6);
    Load (i + 6); Store (i + 6); Store (i + 7); Store (i + 8) ].

(** The offset an access goes to. *)
Definition offset (x : access) : nat :=
  match x with Load a => a | Store a => a end.

(** The accesses of the first [k] passes of each inner loop. *)
Fixpoint inefficient_inner_trace (k : nat) : list access :=
  match k with
  | O => []
  | S k' => inefficient_step_trace k' ++ inefficient_inner_trace k'
  end.

Fixpoint efficient_inner_trace (k : nat) : list access :=
  match k with
  | O => []
  | S k' => efficient_step_trace (8 * k') ++ efficient_inner_trace k'
  end.

(** The storage after a round that started on [m]: the array is full of
    the pattern, the terminator sits in the cell behind the array, and
    the cells after that one are as they were. *)
Definition rebuilt (m : list ascii) : list ascii :=
  pattern (STRBUFLEN / 8) ++ NUL :: drop (S STRBUFLEN) m.

Definition inefficient_round_trace : list access :=
  inefficient_inner_trace (STRBUFLEN / 8) ++ [Store 0].

Definition efficient_round_trace : list access :=
  efficient_inner_trace (STRBUFLEN / 8) ++ [Store 0].

Fixpoint rounds_trace (round : list access) (n : nat) : list access :=
  match n with
  | O => []
  | S n' => round ++ rounds_trace round n'
  end.

(** The accesses the array allows, and the store to the one cell behind
    it: a load below [STRBUFLEN], a store up to [STRBUFLEN]. *)
Definition within (x : access) : Prop :=
  match x with
  | Load a => (a < STRBUFLEN)%nat
  | Store a => (a <= STRBUFLEN)%nat
  end.

(** Zero-initialised static storage of [n] cells, nothing accessed yet. *)
Definition zeroed (n : nat) : machine :=
  {| mem := replicate n NUL; trace := [] |}.

End Mem.

(* ===================================================================== *)
(** ** The runner *)
(* ===================================================================== *)

Module Runner.
Import Clock Mem.

(** The process: the storage, the CPU-time clock and standard output.
    [CLOCK_PROCESS_CPUTIME_ID] counts the processor time that the process
    has used, so what a reading returns depends on what the process has
    done before it: [clock h k] is the reading that [clock_gettime]
    returns when the accesses made so far are [h] and [k] readings were
    taken before.  Nothing else is known about it.  [ticks] counts the
    readings taken so far. *)
Record process : Type := mkProcess {
  ram : machine;
  clock : list access -> nat -> timespec;
  ticks : nat;
  stdout : string
}.

(** [timespec getTime()]: one reading of [CLOCK_PROCESS_CPUTIME_ID]; the
    status that [clock_gettime] returns is not looked at. *)
Definition getTime : M process timespec := fun p =>
  Ok (clock p (trace (ram p)) (ticks p))
     {| ram := ram p; clock := clock p; ticks := S (ticks p);
        stdout := stdout p |}.

(** A call through the function pointer [function]: the callee works on
    the storage of the process. *)
Definition call (function : M machine unit) : M process unit := fun p =>
  match function (ram p) with
  | Ok _ r =>
      Ok tt {| ram := r; clock := clock p; ticks := ticks p;
               stdout := stdout p |}
  | Fault a => Fault a
  | Fuel => Fuel
  end.

(** What [timeOperation] leaves behind: the two readings it stores through
    its reference parameters and the duration it returns. *)
Record timing : Type := mkTiming {
  start : timespec;
  end_ : timespec;
  spent : timespec
}.

(** [timespec timeOperation(timespec& start, timespec& end, function)],
    where [function] points to a [void] function without parameters. *)
Definition timeOperation (function : M machine unit) : M process timing :=
  let* start := getTime in
  call function ;;
  let* end_ := getTime in
  ret {| start := start; end_ := end_; spent := diff start end_ |}.

(** [os << text] on [cout]. *)
Definition put (text : string) : M process unit := fun p =>
  Ok tt {| ram := ram p; clock := clock p; ticks := ticks p;
           stdout := (stdout p ++ text)%string |}.

(** [std::endl]: a newline (and a flush). *)
Definition endl : string := String "010" EmptyString.

(** Lines 85 to 88 of the source, [if (argc > 1) { if (argc }]: the outer
    test is complete, the statement inside its braces breaks off in the
    middle of a condition.  What that statement does is not in the
    source; it is the parameter [unfinished], about which nothing is
    assumed.  It is reached only when [argc > 1]. *)
Definition argument_check
    (unfinished : Z -> list string -> M process unit)
    (argc : Z) (argv : list string) : M process unit :=
  if (argc >? 1)%Z then unfinished argc argv else ret tt.

(** Lines 90 to 101 of the source: the statements of [main] after the
    argument check, up to [return 0]. *)
Definition timed_runs : M process Z :=
  let* timeSpent := timeOperation inefficientStringConcat in
  put (show (spent timeSpent)) ;; put endl ;;
  let* timeSpent := timeOperation efficientStringConcat in
  put (show (spent timeSpent)) ;; put endl ;;
  ret 0%Z.

(** [int main(int argc, char** argv)], with the unfinished statement as
    a parameter.  [trials] is set and never read. *)
Definition main (unfinished : Z -> list string -> M process unit)
    (argc : Z) (argv : list string) : M process Z :=
  let trials := 1%Z in
  argument_check unfinished argc argv ;;
  timed_runs.

(** The [k]-th reading that the process takes from [q] on, when it takes
    it with the storage in state [s]. *)
Definition reading_at (q : process) (s : machine) (k : nat) : timespec :=
  clock q (trace s) (k + ticks q).

(** The line the specification describes for a duration:
    [<seconds>s <milliseconds>ms <remainder-nanoseconds>ns] with
    milliseconds = tv_nsec / 1000000 and
    remainder = tv_nsec - milliseconds * 1000000, over the integers. *)
Definition formatted (d : timespec) : string :=
  (dec (tv_sec d) ++ "s " ++ dec (Z.quot (tv_nsec d) 1000000) ++ "ms "
     ++ dec (tv_nsec d - (Z.quot (tv_nsec d) 1000000) * 1000000) ++ "ns")%string.

(** Number of newline characters of a text. *)
Fixpoint newlines (text : string) : nat :=
  match text with
  | EmptyString => 0%nat
  | String c rest =>
      ((if Ascii.eqb c "010" then 1 else 0) + newlines rest)%nat
  end.

(** A process at its start: zeroed storage with one cell behind the array,
    a clock that advances by a third of a second per reading, nothing
    printed. *)
Definition boot : process :=
  {| ram := zeroed (S STRBUFLEN);
     clock := fun _ k => {| tv_sec := Z.of_nat k / 3;
                            tv_nsec := (Z.of_nat k mod 3) * 333333333 |};
     ticks := 0;
     stdout := EmptyString |}.

(** The same process on a storage that ends with the array. *)
Definition bare : process :=
  {| ram := zeroed STRBUFLEN;
     clock := clock boot;
     ticks := 0;
     stdout := EmptyString |}.

(** An unfinished statement that does nothing, for the examples. *)
Definition idle (argc : Z) (argv : list string) : M process unit := ret tt.

End Runner.

(* ===================================================================== *)
(** ** Theorems about the clock utility *)
(* ===================================================================== *)

Lemma wrap_fits z : Long.fits z -> Long.wrap z = z.
Proof.
  unfold Long.fits, Long.MIN, Long.MAX, Long.wrap. intros H.
  rewrite Z.mod_small; lia.
Qed.

Lemma wrap_range z : Long.fits (Long.wrap z).
Proof.
  unfold Long.fits, Long.MIN, Long.MAX, Long.wrap.
  pose proof (Z.mod_pos_bound (z + 2 ^ 63) (2 ^ 64) ltac:(lia)). lia.
Qed.

Section ClockFacts.
Import Clock.

Lemma diff_exact (s e : timespec) :
  reading s -> reading e -> diff s e = borrow_rule s e.
Proof.
  unfold reading, NSEC_PER_SEC, Long.MAX, diff, borrow_rule.
  intros [Hs1 Hs2] [He1 He2].
  assert (Hn : Long.sub (tv_nsec e) (tv_nsec s) = tv_nsec e - tv_nsec s)
    by (apply wrap_fits; unfold Long.fits, Long.MIN, Long.MAX; lia).
  assert (Hd : Long.sub (tv_sec e) (tv_sec s) = tv_sec e - tv_sec s)
    by (apply wrap_fits; unfold Long.fits, Long.MIN, Long.MAX; lia).
  assert (Ha : Long.add 1000000000 (tv_nsec e) = 1000000000 + tv_nsec e)
    by (apply wrap_fits; unfold Long.fits, Long.MIN, Long.MAX; lia).
  rewrite Hn, Hd, Ha.
  destruct (tv_nsec e - tv_nsec s <? 0); f_equal;
    apply wrap_fits; unfold Long.fits, Long.MIN, Long.MAX; lia.
Qed.

(** C4.  [diff] implements the borrow rule.  On clock readings the 64-bit
    subtractions do not wrap, and the result is the rule over the
    integers: when [end.tv_nsec - start.tv_nsec] is negative, one second
    more is subtracted and 1,000,000,000 is added to the nanosecond
    difference; otherwise the fields are subtracted one by one.  The two
    examples of the specification evaluate as it says. *)
Theorem diff_borrow_rule (s e : timespec) :
  reading s -> reading e ->
  diff s e
  = (if tv_nsec e - tv_nsec s <? 0
     then {| tv_sec := tv_sec e - tv_sec s - 1;
             tv_nsec := 1000000000 + tv_nsec e - tv_nsec s |}
     else {| tv_sec := tv_sec e - tv_sec s;
             tv_nsec := tv_nsec e - tv_nsec s |})
  /\ diff {| tv_sec := 10; tv_nsec := 900000000 |}
          {| tv_sec := 11; tv_nsec := 100000000 |}
     = {| tv_sec := 0; tv_nsec := 200000000 |}
  /\ diff {| tv_sec := 5; tv_nsec := 100 |} {| tv_sec := 5; tv_nsec := 200 |}
     = {| tv_sec := 0; tv_nsec := 100 |}.
Proof.
  intros Hs He. split; [|split; reflexivity].
  rewrite (diff_exact s e Hs He). reflexivity.
Qed.

Lemma diff_borrow_rule_witness :
  diff {| tv_sec := 3; tv_nsec := 999999999 |} {| tv_sec := 7; tv_nsec := 1 |}
  = {| tv_sec := 3; tv_nsec := 2 |}.
Proof.
  refine (proj1 (diff_borrow_rule {| tv_sec := 3; tv_nsec := 999999999 |}
                                  {| tv_sec := 7; tv_nsec := 1 |} _ _));
    unfold reading, NSEC_PER_SEC, Long.MAX; cbn; lia.
Defined.

(** C5.  For clock readings [start] and [end] with [end] not earlier than
    [start], the duration that [diff] returns has its nanosecond field in
    [0, 999999999] and a non-negative seconds field. *)
Theorem diff_normalized (s e : timespec) :
  reading s -> reading e -> later s e ->
  0 <= tv_nsec (diff s e) <= 999999999 /\ 0 <= tv_sec (diff s e).
Proof.
  intros Hs He Hlater. rewrite (diff_exact s e Hs He).
  unfold reading, NSEC_PER_SEC, later, borrow_rule in *.
  destruct (Z.ltb_spec (tv_nsec e - tv_nsec s) 0); cbn [tv_sec tv_nsec]; lia.
Qed.

Lemma diff_normalized_witness :
  0 <= tv_nsec (diff {| tv_sec := 10; tv_nsec := 900000000 |}
                     {| tv_sec := 11; tv_nsec := 100000000 |}) <= 999999999
  /\ 0 <= tv_sec (diff {| tv_sec := 10; tv_nsec := 900000000 |}
                       {| tv_sec := 11; tv_nsec := 100000000 |}).
Proof.
  apply diff_normalized; unfold reading, later, NSEC_PER_SEC, Long.MAX;
    cbn; lia.
Defined.

(* --------------------------------------------------------------------- *)
(** *** More about [diff] and the printed duration *)

(** [diff] loses nothing: on clock readings the duration it returns,
    counted in nanoseconds, is the difference of the two times counted
    in nanoseconds, whichever of the two is the later one. *)
Theorem diff_exact_nanoseconds (s e : timespec) :
  reading s -> reading e ->
  nanoseconds (diff s e) = nanoseconds e - nanoseconds s.
Proof.
  intros Hs He. rewrite (diff_exact s e Hs He).
  unfold borrow_rule, nanoseconds.
  destruct (tv_nsec e - tv_nsec s <? 0); cbn [tv_sec tv_nsec]; lia.
Qed.

Lemma diff_exact_nanoseconds_witness :
  nanoseconds (diff {| tv_sec := 10; tv_nsec := 900000000 |}
                    {| tv_sec := 11; tv_nsec := 100000000 |})
  = 200000000.
Proof.
  refine (diff_exact_nanoseconds {| tv_sec := 10; tv_nsec := 900000000 |}
                                 {| tv_sec := 11; tv_nsec := 100000000 |} _ _);
    unfold reading, NSEC_PER_SEC, Long.MAX; cbn; lia.
Defined.

(** The order of the arguments is not checked.  On clock readings the
    nanosecond field of the result is always in [0, 999999999]; the
    seconds field is non-negative exactly when [end] is not earlier than
    [start], so a swapped pair shows as negative seconds with a
    non-negative nanosecond part. *)
Theorem diff_sign_tells_order (s e : timespec) :
  reading s -> reading e ->
  0 <= tv_nsec (diff s e) <= 999999999
  /\ (0 <= tv_sec (diff s e) <-> later s e).
Proof.
  intros Hs He. rewrite (diff_exact s e Hs He).
  unfold reading, NSEC_PER_SEC, later, borrow_rule in *.
  destruct (Z.ltb_spec (tv_nsec e - tv_nsec s) 0); cbn [tv_sec tv_nsec]; lia.
Qed.

Lemma diff_sign_tells_order_witness :
  0 <= tv_nsec (diff {| tv_sec := 5; tv_nsec := 200 |}
                     {| tv_sec := 5; tv_nsec := 100 |}) <= 999999999
  /\ (0 <= tv_sec (diff {| tv_sec := 5; tv_nsec := 200 |}
                        {| tv_sec := 5; tv_nsec := 100 |})
      <-> later {| tv_sec := 5; tv_nsec := 200 |}
                {| tv_sec := 5; tv_nsec := 100 |}).
Proof.
  apply diff_sign_tells_order;
    unfold reading, NSEC_PER_SEC, Long.MAX; cbn; lia.
Defined.

(** The two numbers that the stream operator derives from [tv_nsec], on
    any [long]: no wrap-around, division towards zero. *)
Lemma printed_parts_exact (d : timespec) :
  Long.fits (tv_nsec d) ->
  timeSpecMS d = Z.quot (tv_nsec d) 1000000
  /\ remainder_ns d = Z.rem (tv_nsec d) 1000000.
Proof.
  intros Hfits. unfold remainder_ns, timeSpecMS.
  unfold Long.fits, Long.MIN, Long.MAX in Hfits.
  pose proof (Z.quot_rem' (tv_nsec d) 1000000) as Hqr.
  assert (Hrem : Z.abs (Z.rem (tv_nsec d) 1000000) < 1000000)
    by (apply Z.rem_bound_abs; lia).
  assert (Hsign : 0 <= Z.rem (tv_nsec d) 1000000 * tv_nsec d)
    by (apply Z.rem_sign_mul; lia).
  assert (Hq : Long.div (tv_nsec d) 1000000 = Z.quot (tv_nsec d) 1000000)
    by (apply wrap_fits; unfold Long.fits, Long.MIN, Long.MAX; nia).
  rewrite Hq. split; [reflexivity|].
  assert (Hm : Long.mul (Z.quot (tv_nsec d) 1000000) 1000000
               = Z.quot (tv_nsec d) 1000000 * 1000000)
    by (apply wrap_fits; unfold Long.fits, Long.MIN, Long.MAX; nia).
  rewrite Hm.
  unfold Long.sub. rewrite wrap_fits;
    unfold Long.fits, Long.MIN, Long.MAX; nia.
Qed.

Lemma printed_parts_bounds (d : timespec) :
  0 <= tv_nsec d <= 999999999 ->
  0 <= timeSpecMS d <= 999
  /\ 0 <= remainder_ns d <= 999999
  /\ timeSpecMS d * 1000000 + remainder_ns d = tv_nsec d.
Proof.
  intros Hn.
  destruct (printed_parts_exact d) as [-> ->];
    [unfold Long.fits, Long.MIN, Long.MAX; lia|].
  pose proof (Z.quot_rem' (tv_nsec d) 1000000) as Hqr.
  pose proof (Z.rem_bound_pos (tv_nsec d) 1000000 ltac:(lia) ltac:(lia)).
  assert (0 <= Z.quot (tv_nsec d) 1000000) by (apply Z.quot_pos; lia).
  nia.
Qed.

(** What the stream operator prints for a nanosecond field in
    [0, 999999999]: milliseconds in [0, 999] and a rest in [0, 999999]
    that together give the field back.  The number before "ns" is the
    part of the nanoseconds below one millisecond. *)
Theorem printed_parts_normalized (d : timespec) :
  0 <= tv_nsec d <= 999999999 ->
  0 <= timeSpecMS d <= 999
  /\ 0 <= remainder_ns d <= 999999
  /\ timeSpecMS d * 1000000 + remainder_ns d = tv_nsec d.
Proof. exact (printed_parts_bounds d). Qed.

Lemma printed_parts_normalized_witness :
  0 <= timeSpecMS {| tv_sec := 0; tv_nsec := 200000123 |} <= 999
  /\ 0 <= remainder_ns {| tv_sec := 0; tv_nsec := 200000123 |} <= 999999
  /\ timeSpecMS {| tv_sec := 0; tv_nsec := 200000123 |} * 1000000
     + remainder_ns {| tv_sec := 0; tv_nsec := 200000123 |}
     = tv_nsec {| tv_sec := 0; tv_nsec := 200000123 |}.
Proof.
  apply printed_parts_normalized. cbn. lia.
Defined.

End ClockFacts.

(* ===================================================================== *)
(** ** The printed line determines the duration *)
(* ===================================================================== *)

Section PrintFacts.
Import Clock.

Local Open Scope string_scope.

Lemma numeric_digits (d : Decimal.uint) :
  all_numeric (NilEmpty.string_of_uint d) = true.
Proof. induction d; cbn [NilEmpty.string_of_uint all_numeric]; auto. Qed.

Lemma dec_numeric (z : Z) : all_numeric (dec z) = true.
Proof.
  unfold dec, NilZero.string_of_int, NilZero.string_of_uint.
  destruct (Z.to_int z) as [d|d]; destruct d;
    cbn [all_numeric]; rewrite ?numeric_digits; reflexivity.
Qed.

Lemma to_int_proper (z : Z) :
  Z.to_int z <> Decimal.Pos Decimal.Nil /\ Z.to_int z <> Decimal.Neg Decimal.Nil.
Proof.
  destruct z as [|p|p]; cbn; split; try discriminate;
    intros [= H]; exact (DecimalPos.Unsigned.to_uint_nonnil p H).
Qed.

(** Printing a number can be undone: different numbers print
    differently. *)
Lemma dec_inj (z z' : Z) : dec z = dec z' -> z = z'.
Proof.
  unfold dec. intros H. apply DecimalZ.to_int_inj.
  destruct (to_int_proper z) as [Hp Hn], (to_int_proper z') as [Hp' Hn'].
  pose proof (NilZero.isi _ Hp Hn) as E.
  pose proof (NilZero.isi _ Hp' Hn') as E'.
  rewrite H in E. rewrite E in E'. injection E' as E'. exact E'.
Qed.

(** A run of sign and digit characters that is followed by another
    character ends where that character stands. *)
Lemma numeric_prefix_unique (u u' : string) c c' r r' :
  all_numeric u = true -> all_numeric u' = true ->
  numeric c = false -> numeric c' = false ->
  u ++ String c r = u' ++ String c' r' ->
  u = u' /\ c = c' /\ r = r'.
Proof.
  revert u'. induction u as [|x u IH]; intros [|x' u'] Hu Hu' Hc Hc' E;
    cbn [append all_numeric] in *.
  - injection E as -> ->. auto.
  - injection E as -> _. apply andb_prop in Hu' as [Hx _]. congruence.
  - injection E as -> _. apply andb_prop in Hu as [Hx _]. congruence.
  - injection E as -> E. apply andb_prop in Hu as [_ Hu].
    apply andb_prop in Hu' as [_ Hu'].
    destruct (IH u' Hu Hu' Hc Hc' E) as (-> & -> & ->). auto.
Qed.

(** The text that the stream operator writes can be read back: two
    durations whose nanosecond fields fit a [long] and that print the
    same are the same. *)
Theorem show_injective (d1 d2 : timespec) :
  Long.fits (tv_nsec d1) -> Long.fits (tv_nsec d2) ->
  show d1 = show d2 -> d1 = d2.
Proof.
  intros H1 H2 E. unfold show in E.
  change ("s " ++ ?x) with (String "s" (String " " x)) in E.
  apply numeric_prefix_unique in E as (Es & _ & E);
    [ | apply dec_numeric | apply dec_numeric | reflexivity | reflexivity ].
  injection E as E.
  change ("ms " ++ ?x) with (String "m" (String "s" (String " " x))) in E.
  apply numeric_prefix_unique in E as (Em & _ & E);
    [ | apply dec_numeric | apply dec_numeric | reflexivity | reflexivity ].
  injection E as E.
  change "ns" with (String "n" "s") in E.
  apply numeric_prefix_unique in E as (Er & _ & _);
    [ | apply dec_numeric | apply dec_numeric | reflexivity | reflexivity ].
  apply dec_inj in Es, Em, Er.
  destruct (printed_parts_exact d1 H1) as [Q1 R1].
  destruct (printed_parts_exact d2 H2) as [Q2 R2].
  rewrite Q1, Q2 in Em. rewrite R1, R2 in Er.
  pose proof (Z.quot_rem' (tv_nsec d1) 1000000) as D1.
  pose proof (Z.quot_rem' (tv_nsec d2) 1000000) as D2.
  destruct d1 as [a1 n1], d2 as [a2 n2]. cbn [tv_sec tv_nsec] in *.
  f_equal; [exact Es | rewrite D1, D2, Em, Er; reflexivity].
Qed.

Lemma show_injective_witness :
  {| tv_sec := 0; tv_nsec := 200000123 |}
  = {| tv_sec := 0; tv_nsec := 200000123 |}.
Proof.
  apply show_injective;
    [ unfold Long.fits, Long.MIN, Long.MAX; cbn; lia
    | unfold Long.fits, Long.MIN, Long.MAX; cbn; lia
    | reflexivity ].
Defined.

End PrintFacts.

(* ===================================================================== *)
(** ** The monad and the loop rule *)
(* ===================================================================== *)

Local Open Scope nat_scope.

Lemma bind_Ok {St A B} (m : M St A) (k : A -> M St B) s a s' :
  m s = Ok a s' -> bind m k s = k a s'.
Proof. unfold bind. intros ->. reflexivity. Qed.

(** Invariant rule for [for_lt]: a body that keeps [I] and moves the
    counter forward ends, with enough fuel, in a state where [I] holds at
    a counter value that has reached the bound. *)
Lemma Ok_inj {St A} (a a' : A) (s s' : St) :
  Ok a s = Ok a' s' -> a = a' /\ s = s'.
Proof. intros H. injection H as -> ->. split; reflexivity. Qed.

Lemma for_lt_rule {St} (I : nat -> St -> Prop) bound next
    (body : nat -> M St unit) :
  (forall i, i < bound -> i < next i) ->
  (forall i s, i < bound -> I i s ->
     exists s', body i s = Ok tt s' /\ I (next i) s') ->
  forall fuel i s, bound - i < fuel -> I i s ->
    exists i' s',
      for_lt fuel i bound next body s = Ok tt s' /\ I i' s' /\ bound <= i'.
Proof.
  intros Hnext Hbody. induction fuel as [|fuel IH]; intros i s Hfuel HI.
  - lia.
  - cbn [for_lt]. destruct (Nat.ltb_spec i bound) as [Hlt|Hge].
    + destruct (Hbody i s Hlt HI) as (s1 & Hrun & HI1).
      rewrite (bind_Ok _ _ _ _ _ Hrun).
      specialize (Hnext i Hlt).
      apply IH; [lia | exact HI1].
    + exists i, s. split; [reflexivity | split; [exact HI | exact Hge]].
Qed.

Lemma for_rule {St} (I : nat -> St -> Prop) start bound next
    (body : nat -> M St unit) :
  (forall i, i < bound -> i < next i) ->
  (forall i s, i < bound -> I i s ->
     exists s', body i s = Ok tt s' /\ I (next i) s') ->
  forall s, I start s ->
    exists i' s',
      for_ start bound next body s = Ok tt s' /\ I i' s' /\ bound <= i'.
Proof.
  intros Hnext Hbody s HI. unfold for_.
  apply (for_lt_rule I bound next body Hnext Hbody); [lia | exact HI].
Qed.

(** Fault rule: while [I] holds the guard lets the loop go on, and a round
    either keeps [I] or faults at [a]; then the loop faults at [a]. *)
Lemma for_lt_fault {St} (I : nat -> St -> Prop) bound next
    (body : nat -> M St unit) (a : nat) :
  (forall i, i < bound -> i < next i) ->
  (forall i s, I i s -> i < bound) ->
  (forall i s, I i s ->
     body i s = Fault a \/ exists s', body i s = Ok tt s' /\ I (next i) s') ->
  forall fuel i s, bound - i < fuel -> I i s ->
    for_lt fuel i bound next body s = Fault a.
Proof.
  intros Hnext Hguard Hbody. induction fuel as [|fuel IH]; intros i s Hfuel HI.
  - lia.
  - cbn [for_lt]. pose proof (Hguard i s HI) as Hlt.
    destruct (Nat.ltb_spec i bound) as [_|]; [|lia].
    destruct (Hbody i s HI) as [Hfault | (s' & Hrun & HI')].
    + unfold bind. rewrite Hfault. reflexivity.
    + rewrite (bind_Ok _ _ _ _ _ Hrun). specialize (Hnext i Hlt).
      apply IH; [lia | exact HI'].
Qed.

Lemma for_first_fault {St} start bound next (body : nat -> M St unit) s a :
  start < bound -> body start s = Fault a ->
  for_ start bound next body s = Fault a.
Proof.
  intros Hlt Hfault. unfold for_. cbn [for_lt].
  destruct (Nat.ltb_spec start bound) as [_|]; [|lia].
  unfold bind. rewrite Hfault. reflexivity.
Qed.

(** Every state of [loop_head] lies on the path of the loop: what the
    loop returns from its start, it returns from there. *)
Lemma loop_head_on_path {St} bound next (body : nat -> M St unit) i0 s0 i s :
  loop_head bound next body i0 s0 i s ->
  forall fuel0 r, for_lt fuel0 i0 bound next body s0 = Ok tt r ->
    exists fuel, for_lt fuel i bound next body s = Ok tt r.
Proof.
  induction 1 as [|i s s' _ IH Hguard Hbody]; intros fuel0 r Hrun.
  - exists fuel0. exact Hrun.
  - destruct (IH fuel0 r Hrun) as [fuel Hfuel].
    destruct fuel as [|fuel]; [discriminate|].
    cbn [for_lt] in Hfuel. rewrite Hguard in Hfuel.
    rewrite (bind_Ok _ _ _ _ _ Hbody) in Hfuel.
    exists fuel. exact Hfuel.
Qed.

(* ===================================================================== *)
(** ** Loads, stores and [strncat] *)
(* ===================================================================== *)

Section MemFacts.
Import Mem.

Lemma load_at a pre c post m tr :
  m = pre ++ c :: post -> a = length pre ->
  load a {| mem := m; trace := tr |}
  = Ok c {| mem := m; trace := Load a :: tr |}.
Proof.
  intros -> ->. unfold load; cbn [mem trace].
  rewrite (list_lookup_middle pre post c (length pre) eq_refl). reflexivity.
Qed.

Lemma store_at a pre c post m tr c' :
  m = pre ++ c :: post -> a = length pre ->
  store a c' {| mem := m; trace := tr |}
  = Ok tt {| mem := pre ++ c' :: post; trace := Store a :: tr |}.
Proof.
  intros -> ->. unfold store; cbn [mem trace].
  destruct (Nat.ltb_spec (length pre) (length (pre ++ c :: post))) as [_|H].
  - rewrite (insert_app_r_alt pre (c :: post) (length pre)) by lia.
    rewrite Nat.sub_diag. reflexivity.
  - rewrite length_app in H. cbn in H. lia.
Qed.

Lemma store_outside a c s :
  length (mem s) <= a -> store a c s = Fault a.
Proof.
  intros H. unfold store.
  destruct (Nat.ltb_spec a (length (mem s))); [lia | reflexivity].
Qed.

Lemma loads_S a n : loads a (S n) = Load (a + n) :: loads a n.
Proof.
  unfold loads. rewrite seq_S, fmap_app, rev_app_distr. reflexivity.
Qed.

Lemma stores_S a n : stores a (S n) = Store (a + n) :: stores a n.
Proof.
  unfold stores. rewrite seq_S, fmap_app, rev_app_distr. reflexivity.
Qed.

(** The scan walks over the characters of the string and stops at its
    terminator; it reads every cell from [dest] to the terminator and
    changes nothing. *)
Lemma scan_spec pre cs2 post :
  nul_free cs2 ->
  forall cs1 fuel tr,
    length cs2 < fuel ->
    scan fuel (length pre) (length cs1)
      {| mem := pre ++ (cs1 ++ cs2) ++ NUL :: post;
         trace := loads (length pre) (length cs1) ++ tr |}
    = Ok (length (cs1 ++ cs2))
        {| mem := pre ++ (cs1 ++ cs2) ++ NUL :: post;
           trace := loads (length pre) (S (length (cs1 ++ cs2))) ++ tr |}.
Proof.
  induction cs2 as [|c cs2 IH]; intros Hfree cs1 fuel tr Hfuel.
  - destruct fuel as [|fuel]; [cbn in Hfuel; lia|].
    rewrite app_nil_r. cbn [scan].
    erewrite bind_Ok
      by (apply (load_at _ (pre ++ cs1) NUL post);
          [rewrite <- app_assoc; reflexivity
          | rewrite length_app; reflexivity]).
    rewrite Ascii.eqb_refl. unfold ret. rewrite loads_S. reflexivity.
  - destruct fuel as [|fuel]; [cbn in Hfuel; lia|].
    inversion Hfree as [|? ? Hc Hrest]; subst.
    cbn [scan].
    erewrite bind_Ok
      by (apply (load_at _ (pre ++ cs1) c (cs2 ++ NUL :: post));
          [rewrite <- !app_assoc; reflexivity
          | rewrite length_app; reflexivity]).
    destruct (Ascii.eqb_spec c NUL) as [->|_]; [congruence|].
    specialize (IH Hrest (cs1 ++ [c]) fuel tr).
    rewrite <- !app_assoc in IH. cbn [app] in IH.
    rewrite length_app in IH. cbn [length] in IH.
    rewrite Nat.add_1_r, loads_S in IH. cbn [app] in IH.
    rewrite length_app in IH |- *. cbn [length] in IH |- *.
    rewrite <- !app_assoc. cbn [app].
    rewrite IH by (cbn in Hfuel; lia).
    replace (S (length cs1) + length cs2) with (length cs1 + S (length cs2))
      by lia.
    reflexivity.
Qed.

Lemma strlen_spec pre cs post tr :
  nul_free cs ->
  strlen (length pre) {| mem := pre ++ cs ++ NUL :: post; trace := tr |}
  = Ok (length cs)
      {| mem := pre ++ cs ++ NUL :: post;
         trace := loads (length pre) (S (length cs)) ++ tr |}.
Proof.
  intros Hfree. unfold strlen. cbn [mem].
  apply (scan_spec pre cs post Hfree [] _ tr).
  rewrite !length_app. cbn [length]. lia.
Qed.

Lemma stores_cons a n : stores a (S n) = stores (S a) n ++ [Store a].
Proof. reflexivity. Qed.

(** Copying [t] over a run of cells of the same length. *)
Lemma copy_spec t :
  forall pre old post tr,
    length old = length t ->
    copy (length pre) t {| mem := pre ++ old ++ post; trace := tr |}
    = Ok tt {| mem := pre ++ t ++ post;
               trace := stores (length pre) (length t) ++ tr |}.
Proof.
  induction t as [|c t IH]; intros pre old post tr Hlen.
  - destruct old; [reflexivity | discriminate].
  - destruct old as [|o old]; [discriminate|].
    cbn [copy].
    erewrite bind_Ok
      by (apply (store_at _ pre o (old ++ post)); reflexivity).
    specialize (IH (pre ++ [c]) old post (Store (length pre) :: tr)).
    rewrite length_app, Nat.add_1_r, <- !app_assoc in IH. cbn [app] in IH.
    rewrite IH by (cbn in Hlen; lia).
    cbn [length]. rewrite stores_cons, <- app_assoc. reflexivity.
Qed.

Lemma taken_all cs : nul_free cs -> forall n, length cs <= n -> taken n cs = cs.
Proof.
  induction 1 as [|c cs Hc _ IH]; intros n Hn.
  - destruct n; reflexivity.
  - destruct n as [|n]; [cbn in Hn; lia|].
    cbn [taken]. destruct (Ascii.eqb_spec c NUL); [congruence|].
    rewrite IH by (cbn in Hn; lia). reflexivity.
Qed.

(** [strncat] on a storage whose first terminator at or after [dest] is
    at offset [length built]: it appends there, and the terminator it
    writes lands [length t] cells further. *)
Lemma strncat_spec dest src n t built post tr :
  dest <= length built ->
  nul_free (drop dest built) ->
  taken n (list_ascii_of_string src) = t ->
  length t <= length post ->
  strncat dest src n {| mem := built ++ NUL :: post; trace := tr |}
  = Ok tt {| mem := (built ++ t) ++ NUL :: drop (length t) post;
             trace := cat_trace dest (length built) (length t) ++ tr |}.
Proof.
  intros Hdest Hfree Htaken Hroom. unfold strncat. rewrite Htaken.
  pose proof (take_drop dest built) as Hsplit.
  assert (Hpre : length (take dest built) = dest)
    by (rewrite length_take; lia).
  assert (Hcs : length (drop dest built) = length built - dest)
    by apply length_drop.
  assert (Hmem : built ++ NUL :: post
                 = take dest built ++ drop dest built ++ NUL :: post)
    by (rewrite app_assoc, Hsplit; reflexivity).
  rewrite Hmem. rewrite <- Hpre at 1.
  erewrite bind_Ok by (apply strlen_spec; exact Hfree).
  rewrite Hpre, Hcs, <- Hmem.
  replace (dest + (length built - dest)) with (length built) by lia.
  (* the cells that the characters of [t] overwrite *)
  assert (Hold : length (take (length t) (NUL :: post)) = length t)
    by (rewrite length_take; cbn [length]; lia).
  destruct (lookup_lt_is_Some_2 (NUL :: post) (length t)) as [x Hx];
    [cbn [length]; lia|].
  pose proof (drop_S _ _ _ Hx) as Hdrop. cbn [drop] in Hdrop.
  assert (Htail : NUL :: post
                  = take (length t) (NUL :: post) ++ x :: drop (length t) post).
  { rewrite <- Hdrop.
    destruct (length t); [reflexivity|]. symmetry. apply take_drop. }
  rewrite Htail at 1.
  erewrite bind_Ok by (apply copy_spec; exact Hold).
  rewrite (store_at _ (built ++ t) x (drop (length t) post) _ _ NUL)
    by (rewrite <- ?app_assoc, ?length_app; reflexivity).
  unfold cat_trace. rewrite <- !app_assoc. cbn [app].
  rewrite <- !app_assoc. reflexivity.
Qed.

(** When the cells from the terminator on are exactly as many as the
    characters to append, the characters fit and the new terminator does
    not: its store goes to the first offset behind the storage. *)
Lemma strncat_no_room dest src n t built post tr :
  dest <= length built ->
  nul_free (drop dest built) ->
  taken n (list_ascii_of_string src) = t ->
  length t = S (length post) ->
  strncat dest src n {| mem := built ++ NUL :: post; trace := tr |}
  = Fault (length built + length t).
Proof.
  intros Hdest Hfree Htaken Hroom. unfold strncat. rewrite Htaken.
  pose proof (take_drop dest built) as Hsplit.
  assert (Hpre : length (take dest built) = dest)
    by (rewrite length_take; lia).
  assert (Hcs : length (drop dest built) = length built - dest)
    by apply length_drop.
  assert (Hmem : built ++ NUL :: post
                 = take dest built ++ drop dest built ++ NUL :: post)
    by (rewrite app_assoc, Hsplit; reflexivity).
  rewrite Hmem. rewrite <- Hpre at 1.
  erewrite bind_Ok by (apply strlen_spec; exact Hfree).
  rewrite Hpre, Hcs, <- Hmem.
  replace (dest + (length built - dest)) with (length built) by lia.
  replace (built ++ NUL :: post) with (built ++ (NUL :: post) ++ [])
    by (rewrite app_nil_r; reflexivity).
  erewrite bind_Ok by (apply copy_spec; cbn [length]; lia).
  apply store_outside. cbn [mem].
  rewrite app_nil_r, length_app. lia.
Qed.

(* ------------------------------------------------------------------- *)
(** *** One pass of an inner loop *)

Lemma pattern_length k : length (pattern k) = 8 * k.
Proof.
  induction k as [|k IH]; [reflexivity|].
  cbn [pattern]. rewrite length_app, IH.
  change (length JoPaGeRi) with 8. lia.
Qed.

Lemma pattern_snoc k : pattern k ++ JoPaGeRi = pattern (S k).
Proof.
  induction k as [|k IH]; [reflexivity|].
  cbn [pattern] in *. rewrite <- app_assoc, IH. reflexivity.
Qed.

Lemma nul_free_token (t : string) :
  Forall (fun c => Ascii.eqb c NUL = false) (list_ascii_of_string t) ->
  nul_free (list_ascii_of_string t).
Proof.
  intros H. eapply Forall_impl; [exact H|].
  intros c Hc ->. discriminate.
Qed.

Lemma nul_free_JoPaGeRi : nul_free JoPaGeRi.
Proof. apply nul_free_token. repeat constructor. Qed.

Lemma nul_free_pattern k : nul_free (pattern k).
Proof.
  induction k as [|k IH]; [constructor|].
  cbn [pattern]. apply Forall_app. split; [apply nul_free_JoPaGeRi | exact IH].
Qed.

Lemma nul_free_Jo : nul_free Jo.
Proof. apply nul_free_token. repeat constructor. Qed.
Lemma nul_free_Pa : nul_free Pa.
Proof. apply nul_free_token. repeat constructor. Qed.
Lemma nul_free_Ge : nul_free Ge.
Proof. apply nul_free_token. repeat constructor. Qed.
Lemma nul_free_Ri : nul_free Ri.
Proof. apply nul_free_token. repeat constructor. Qed.

Create HintDb tokens.
Hint Resolve nul_free_Jo nul_free_Pa nul_free_Ge nul_free_Ri
  nul_free_pattern nul_free_JoPaGeRi : tokens.

Lemma nul_free_app a b : nul_free a -> nul_free b -> nul_free (a ++ b).
Proof. intros Ha Hb. apply Forall_app. split; assumption. Qed.
Hint Resolve nul_free_app : tokens.

Lemma four_tokens k : (((pattern k ++ Jo) ++ Pa) ++ Ge) ++ Ri = pattern (S k).
Proof. rewrite <- pattern_snoc, <- !app_assoc. reflexivity. Qed.

Lemma inefficient_step_spec i k post tr :
  8 <= length post ->
  inefficient_step i {| mem := pattern k ++ NUL :: post; trace := tr |}
  = Ok tt {| mem := pattern (S k) ++ NUL :: drop 8 post;
             trace := inefficient_step_trace k ++ tr |}.
Proof.
  intros Hroom. unfold inefficient_step.
  erewrite bind_Ok by
    (apply (strncat_spec 0 _ _ Jo);
     [lia | rewrite drop_0; auto with tokens | reflexivity
     | cbn [Jo length list_ascii_of_string]; lia]).
  erewrite bind_Ok by
    (apply (strncat_spec 0 _ _ Pa);
     [lia | rewrite drop_0; auto with tokens | reflexivity
     | rewrite length_drop; cbn [Pa Jo length list_ascii_of_string]; lia]).
  erewrite bind_Ok by
    (apply (strncat_spec 0 _ _ Ge);
     [lia | rewrite drop_0; auto 6 with tokens | reflexivity
     | rewrite !length_drop; cbn [Pa Jo Ge length list_ascii_of_string]; lia]).
  rewrite (strncat_spec 0 _ _ Ri);
    [ | lia | rewrite drop_0; auto 8 with tokens | reflexivity
      | rewrite !length_drop; cbn [Pa Jo Ge Ri length list_ascii_of_string]; lia].
  rewrite four_tokens, !drop_drop, !length_app, pattern_length.
  cbn [Pa Jo Ge Ri length list_ascii_of_string Nat.add].
  unfold inefficient_step_trace. rewrite <- !app_assoc.
  replace (8 * k + 2 + 2) with (8 * k + 4) by lia.
  replace (8 * k + 4 + 2) with (8 * k + 6) by lia.
  reflexivity.
Qed.

(** One pass of the efficient loop needs only a terminator at offset
    [i]: what lies before it ([built]) is never looked at. *)
Lemma efficient_step_spec i built post tr :
  length built = i ->
  i + 8 <= STRBUFLEN ->
  8 <= length post ->
  efficient_step i {| mem := built ++ NUL :: post; trace := tr |}
  = Ok tt {| mem := (built ++ JoPaGeRi) ++ NUL :: drop 8 post;
             trace := efficient_step_trace i ++ tr |}.
Proof.
  intros Hbuilt Hi Hroom. unfold efficient_step.
  assert (Hn : 2 <= STRBUFLEN - i) by lia.
  erewrite bind_Ok by
    (apply (strncat_spec _ _ _ Jo);
     [ cbn [Nat.add]; lia
     | rewrite drop_ge by (cbn [Nat.add]; lia); constructor
     | apply taken_all; [auto with tokens | exact Hn]
     | cbn [Jo length list_ascii_of_string]; lia ]).
  erewrite bind_Ok by
    (apply (strncat_spec _ _ _ Pa);
     [ rewrite length_app; cbn [Nat.add Jo length list_ascii_of_string]; lia
     | rewrite drop_ge
         by (rewrite length_app;
             cbn [Nat.add Jo length list_ascii_of_string]; lia);
       constructor
     | apply taken_all; [auto with tokens | exact Hn]
     | rewrite length_drop; cbn [Pa Jo length list_ascii_of_string]; lia ]).
  erewrite bind_Ok by
    (apply (strncat_spec _ _ _ Ge);
     [ rewrite !length_app;
       cbn [Nat.add Jo Pa length list_ascii_of_string]; lia
     | rewrite drop_ge
         by (rewrite !length_app;
             cbn [Nat.add Jo Pa length list_ascii_of_string]; lia);
       constructor
     | apply taken_all; [auto with tokens | exact Hn]
     | rewrite !length_drop;
       cbn [Pa Jo Ge length list_ascii_of_string]; lia ]).
  rewrite (strncat_spec _ _ _ Ri);
    [ | rewrite !length_app;
        cbn [Nat.add Jo Pa Ge length list_ascii_of_string]; lia
      | rewrite drop_ge
          by (rewrite !length_app;
              cbn [Nat.add Jo Pa Ge length list_ascii_of_string]; lia);
        constructor
      | apply taken_all; [auto with tokens | exact Hn]
      | rewrite !length_drop;
        cbn [Pa Jo Ge Ri length list_ascii_of_string]; lia ].
  rewrite !drop_drop, !length_app, Hbuilt.
  cbn [Pa Jo Ge Ri length list_ascii_of_string Nat.add].
  unfold efficient_step_trace. rewrite <- !app_assoc.
  replace (i + 2 + 2) with (i + 4) by lia.
  replace (i + 4 + 2) with (i + 6) by lia.
  reflexivity.
Qed.

(** The pass that finds seven cells behind the terminator: three tokens
    fit, the terminator of the fourth does not. *)
Lemma inefficient_step_no_room i k post tr :
  length post = 7 ->
  inefficient_step i {| mem := pattern k ++ NUL :: post; trace := tr |}
  = Fault (8 * k + 8).
Proof.
  intros Hroom. unfold inefficient_step.
  erewrite bind_Ok by
    (apply (strncat_spec 0 _ _ Jo);
     [lia | rewrite drop_0; auto with tokens | reflexivity
     | cbn [Jo length list_ascii_of_string]; lia]).
  erewrite bind_Ok by
    (apply (strncat_spec 0 _ _ Pa);
     [lia | rewrite drop_0; auto with tokens | reflexivity
     | rewrite length_drop; cbn [Pa Jo length list_ascii_of_string]; lia]).
  erewrite bind_Ok by
    (apply (strncat_spec 0 _ _ Ge);
     [lia | rewrite drop_0; auto 6 with tokens | reflexivity
     | rewrite !length_drop; cbn [Pa Jo Ge length list_ascii_of_string]; lia]).
  rewrite (strncat_no_room 0 _ _ Ri);
    [ | lia | rewrite drop_0; auto 8 with tokens | reflexivity
      | rewrite !length_drop; cbn [Pa Jo Ge Ri length list_ascii_of_string];
        lia].
  rewrite !length_app, pattern_length.
  cbn [Pa Jo Ge Ri length list_ascii_of_string]. f_equal. lia.
Qed.

Lemma efficient_step_no_room i built post tr :
  length built = i ->
  i + 8 <= STRBUFLEN ->
  length post = 7 ->
  efficient_step i {| mem := built ++ NUL :: post; trace := tr |}
  = Fault (i + 8).
Proof.
  intros Hbuilt Hi Hroom. unfold efficient_step.
  assert (Hn : 2 <= STRBUFLEN - i) by lia.
  erewrite bind_Ok by
    (apply (strncat_spec _ _ _ Jo);
     [ cbn [Nat.add]; lia
     | rewrite drop_ge by (cbn [Nat.add]; lia); constructor
     | apply taken_all; [auto with tokens | exact Hn]
     | cbn [Jo length list_ascii_of_string]; lia ]).
  erewrite bind_Ok by
    (apply (strncat_spec _ _ _ Pa);
     [ rewrite length_app; cbn [Nat.add Jo length list_ascii_of_string]; lia
     | rewrite drop_ge
         by (rewrite length_app;
             cbn [Nat.add Jo length list_ascii_of_string]; lia);
       constructor
     | apply taken_all; [auto with tokens | exact Hn]
     | rewrite length_drop; cbn [Pa Jo length list_ascii_of_string]; lia ]).
  erewrite bind_Ok by
    (apply (strncat_spec _ _ _ Ge);
     [ rewrite !length_app;
       cbn [Nat.add Jo Pa length list_ascii_of_string]; lia
     | rewrite drop_ge
         by (rewrite !length_app;
             cbn [Nat.add Jo Pa length list_ascii_of_string]; lia);
       constructor
     | apply taken_all; [auto with tokens | exact Hn]
     | rewrite !length_drop;
       cbn [Pa Jo Ge length list_ascii_of_string]; lia ]).
  rewrite (strncat_no_room _ _ _ Ri);
    [ | rewrite !length_app;
        cbn [Nat.add Jo Pa Ge length list_ascii_of_string]; lia
      | rewrite drop_ge
          by (rewrite !length_app;
              cbn [Nat.add Jo Pa Ge length list_ascii_of_string]; lia);
        constructor
      | apply taken_all; [auto with tokens | exact Hn]
      | rewrite !length_drop;
        cbn [Pa Jo Ge Ri length list_ascii_of_string]; lia ].
  rewrite !length_app, Hbuilt.
  cbn [Pa Jo Ge Ri length list_ascii_of_string]. f_equal. lia.
Qed.

(* ------------------------------------------------------------------- *)
(** *** One round: reset and inner loop *)

Lemma inefficient_round_spec m tr :
  STRBUFLEN < length m ->
  inefficient_round {| mem := m; trace := tr |}
  = Ok tt {| mem := rebuilt m; trace := inefficient_round_trace ++ tr |}.
Proof.
  intros Hlen. unfold inefficient_round.
  destruct m as [|x m]; [cbn in Hlen; lia|].
  cbn [length] in Hlen. unfold STRBUFLEN in Hlen.
  erewrite bind_Ok by (apply (store_at 0 [] x m); reflexivity).
  change (STRBUFLEN / 8) with 128.
  destruct (for_rule
    (fun i s => i <= 128 /\
       s = {| mem := pattern i ++ NUL :: drop (8 * i) m;
              trace := inefficient_inner_trace i ++ Store 0 :: tr |})
    0 128 S inefficient_step) with (s := {| mem := [] ++ NUL :: m;
                                         trace := Store 0 :: tr |})
    as (i' & s' & Hrun & [Hi' ->] & Hge).
  - intros i _. lia.
  - intros i s Hi [_ ->].
    eexists. split.
    + apply inefficient_step_spec. rewrite length_drop. lia.
    + split; [lia|]. rewrite drop_drop.
      replace (8 * i + 8) with (8 * S i) by lia.
      cbn [inefficient_inner_trace]. rewrite <- app_assoc. reflexivity.
  - split; [lia | reflexivity].
  - rewrite Hrun. assert (i' = 128) as -> by lia.
    unfold rebuilt, inefficient_round_trace.
    change (STRBUFLEN / 8) with 128. rewrite <- app_assoc. reflexivity.
Qed.

Lemma efficient_round_spec m tr :
  STRBUFLEN < length m ->
  efficient_round {| mem := m; trace := tr |}
  = Ok tt {| mem := rebuilt m; trace := efficient_round_trace ++ tr |}.
Proof.
  intros Hlen. unfold efficient_round.
  destruct m as [|x m]; [cbn in Hlen; lia|].
  cbn [length] in Hlen. unfold STRBUFLEN in Hlen.
  erewrite bind_Ok by (apply (store_at 0 [] x m); reflexivity).
  destruct (for_rule
    (fun i s => exists k, i = 8 * k /\ k <= 128 /\
       s = {| mem := pattern k ++ NUL :: drop (8 * k) m;
              trace := efficient_inner_trace k ++ Store 0 :: tr |})
    0 STRBUFLEN (fun i => i + 8) efficient_step)
    with (s := {| mem := [] ++ NUL :: m; trace := Store 0 :: tr |})
    as (i' & s' & Hrun & (k & -> & Hk & ->) & Hge).
  - intros i _. lia.
  - intros i s Hi (k & -> & Hk & ->). unfold STRBUFLEN in Hi.
    eexists. split.
    + apply efficient_step_spec;
        [apply pattern_length | unfold STRBUFLEN; lia
        | rewrite length_drop; lia].
    + exists (S k). split; [lia|]. split; [lia|].
      rewrite drop_drop, pattern_snoc.
      replace (8 * k + 8) with (8 * S k) by lia.
      cbn [efficient_inner_trace]. rewrite <- app_assoc. reflexivity.
  - exists 0. split; [reflexivity|]. split; [lia | reflexivity].
  - rewrite Hrun. unfold STRBUFLEN in Hge. assert (k = 128) as -> by lia.
    unfold rebuilt, efficient_round_trace.
    change (STRBUFLEN / 8) with 128. rewrite <- app_assoc. reflexivity.
Qed.

(* ------------------------------------------------------------------- *)
(** *** The whole run: rounds repeated *)

Lemma rebuilt_length m : STRBUFLEN < length m -> length (rebuilt m) = length m.
Proof.
  intros Hlen. unfold rebuilt.
  rewrite length_app, pattern_length. cbn [length]. rewrite length_drop.
  change (STRBUFLEN / 8) with 128. unfold STRBUFLEN in *. lia.
Qed.

Lemma rebuilt_idem m : rebuilt (rebuilt m) = rebuilt m.
Proof.
  assert (H : drop (S STRBUFLEN) (rebuilt m) = drop (S STRBUFLEN) m).
  { unfold rebuilt.
    change (pattern (STRBUFLEN / 8) ++ NUL :: drop (S STRBUFLEN) m)
      with (pattern (STRBUFLEN / 8) ++ [NUL] ++ drop (S STRBUFLEN) m).
    rewrite app_assoc. apply drop_app_length'.
    rewrite length_app, pattern_length. reflexivity. }
  unfold rebuilt at 1. rewrite H. reflexivity.
Qed.

(** [n] rounds of a loop whose round rebuilds the storage. *)
Lemma rounds_spec (round : M machine unit) (rt : list access) :
  (forall m tr, STRBUFLEN < length m ->
     round {| mem := m; trace := tr |}
     = Ok tt {| mem := rebuilt m; trace := rt ++ tr |}) ->
  forall n m tr, 0 < n -> STRBUFLEN < length m ->
    for_ 0 n S (fun _ => round) {| mem := m; trace := tr |}
    = Ok tt {| mem := rebuilt m; trace := rounds_trace rt n ++ tr |}.
Proof.
  intros Hround n m tr Hn Hlen.
  destruct (for_rule
    (fun j s => j <= n /\
       s = {| mem := match j with O => m | S _ => rebuilt m end;
              trace := rounds_trace rt j ++ tr |})
    0 n S (fun _ => round)) with (s := {| mem := m; trace := tr |})
    as (j' & s' & Hrun & [Hj' ->] & Hge).
  - intros j _. lia.
  - intros j s Hj [_ ->]. eexists. split.
    + apply Hround. destruct j; [exact Hlen|].
      rewrite rebuilt_length by exact Hlen. exact Hlen.
    + split; [lia|]. cbn [rounds_trace]. rewrite <- app_assoc.
      destruct j; [reflexivity | rewrite rebuilt_idem; reflexivity].
  - split; [lia | reflexivity].
  - rewrite Hrun. assert (j' = n) as -> by lia.
    destruct n; [lia | reflexivity].
Qed.

Lemma rounds_positive : 0 < 10000.
Proof. apply Nat.ltb_lt. vm_compute. reflexivity. Qed.

Lemma inefficientStringConcat_spec m tr :
  STRBUFLEN < length m ->
  inefficientStringConcat {| mem := m; trace := tr |}
  = Ok tt {| mem := rebuilt m;
             trace := rounds_trace inefficient_round_trace 10000 ++ tr |}.
Proof.
  intros Hlen. unfold inefficientStringConcat.
  apply (rounds_spec _ _ inefficient_round_spec);
    [exact rounds_positive | exact Hlen].
Qed.

Lemma efficientStringConcat_spec m tr :
  STRBUFLEN < length m ->
  efficientStringConcat {| mem := m; trace := tr |}
  = Ok tt {| mem := rebuilt m;
             trace := rounds_trace efficient_round_trace 10000 ++ tr |}.
Proof.
  intros Hlen. unfold efficientStringConcat.
  apply (rounds_spec _ _ efficient_round_spec);
    [exact rounds_positive | exact Hlen].
Qed.

(* --------------------------------------------------------------------- *)
(** *** What the array holds afterwards *)

Lemma buffer_rebuilt m tr :
  STRBUFFER {| mem := rebuilt m; trace := tr |} = pattern 128.
Proof.
  unfold STRBUFFER, rebuilt. cbn [mem]. change (STRBUFLEN / 8) with 128.
  apply take_app_length'. rewrite pattern_length. reflexivity.
Qed.

Lemma upto_nul_terminated cs rest :
  nul_free cs -> upto_nul (cs ++ NUL :: rest) = cs.
Proof.
  induction 1 as [|c cs Hc _ IH]; cbn [app upto_nul].
  - rewrite Ascii.eqb_refl. reflexivity.
  - destruct (Ascii.eqb_spec c NUL); [congruence|]. rewrite IH. reflexivity.
Qed.

Lemma cstring_rebuilt m tr :
  cstring 0 {| mem := rebuilt m; trace := tr |} = pattern 128.
Proof.
  unfold cstring, rebuilt. cbn [mem]. rewrite drop_0.
  change (STRBUFLEN / 8) with 128.
  apply upto_nul_terminated, nul_free_pattern.
Qed.

Lemma pattern_fills_buffer : take STRBUFLEN (pattern 128) = pattern 128.
Proof. apply take_ge. rewrite pattern_length. reflexivity. Qed.

(** C2.  After one outer round of either function the array [STRBUFFER]
    holds "JoPaGeRi" repeated 128 times, cut to the 1024 bytes of the
    array; the cut removes nothing, the 1024 characters fill the array. *)
Theorem round_content (s : machine) :
  STRBUFLEN < length (mem s) ->
  (exists s', inefficient_round s = Ok tt s'
              /\ STRBUFFER s' = take STRBUFLEN (pattern 128)
              /\ STRBUFFER s' = pattern 128)
  /\ (exists s', efficient_round s = Ok tt s'
                 /\ STRBUFFER s' = take STRBUFLEN (pattern 128)
                 /\ STRBUFFER s' = pattern 128).
Proof.
  destruct s as [m tr]. cbn [mem]. intros Hlen. split.
  - eexists. split; [apply inefficient_round_spec, Hlen|].
    rewrite pattern_fills_buffer, buffer_rebuilt. split; reflexivity.
  - eexists. split; [apply efficient_round_spec, Hlen|].
    rewrite pattern_fills_buffer, buffer_rebuilt. split; reflexivity.
Qed.

Lemma round_content_witness :
  (exists s', inefficient_round (zeroed (S STRBUFLEN)) = Ok tt s'
              /\ STRBUFFER s' = take STRBUFLEN (pattern 128)
              /\ STRBUFFER s' = pattern 128)
  /\ (exists s', efficient_round (zeroed (S STRBUFLEN)) = Ok tt s'
                 /\ STRBUFFER s' = take STRBUFLEN (pattern 128)
                 /\ STRBUFFER s' = pattern 128).
Proof.
  apply (round_content (zeroed (S STRBUFLEN))).
  apply Nat.ltb_lt. vm_compute. reflexivity.
Defined.

(** C1.  Whatever the storage held before, a run of
    [inefficientStringConcat] and a run of [efficientStringConcat] leave
    the array with the same content, and the same C string at its start;
    started on the same storage they leave the same storage. *)
Theorem same_final_content (s1 s2 : machine) :
  STRBUFLEN < length (mem s1) ->
  STRBUFLEN < length (mem s2) ->
  exists r1 r2,
    inefficientStringConcat s1 = Ok tt r1
    /\ efficientStringConcat s2 = Ok tt r2
    /\ STRBUFFER r1 = STRBUFFER r2
    /\ cstring 0 r1 = cstring 0 r2
    /\ (mem s1 = mem s2 -> mem r1 = mem r2).
Proof.
  destruct s1 as [m1 tr1], s2 as [m2 tr2]. cbn [mem]. intros H1 H2.
  do 2 eexists.
  split; [apply inefficientStringConcat_spec, H1|].
  split; [apply efficientStringConcat_spec, H2|].
  rewrite !buffer_rebuilt, !cstring_rebuilt. cbn [mem].
  split; [reflexivity|]. split; [reflexivity|]. intros ->. reflexivity.
Qed.

Lemma same_final_content_witness :
  exists r1 r2,
    inefficientStringConcat (zeroed (S STRBUFLEN)) = Ok tt r1
    /\ efficientStringConcat (zeroed (S STRBUFLEN)) = Ok tt r2
    /\ STRBUFFER r1 = STRBUFFER r2
    /\ cstring 0 r1 = cstring 0 r2
    /\ (mem (zeroed (S STRBUFLEN)) = mem (zeroed (S STRBUFLEN))
        -> mem r1 = mem r2).
Proof.
  apply (same_final_content (zeroed (S STRBUFLEN)) (zeroed (S STRBUFLEN)));
    apply Nat.ltb_lt; vm_compute; reflexivity.
Defined.

(** C8.  For either function, the storage after all 10000 outer rounds is
    the storage after a single round: a round resets the array and
    rebuilds the same content, and a further round changes nothing. *)
Theorem rounds_idempotent (s : machine) :
  STRBUFLEN < length (mem s) ->
  (exists r1 r2 rN,
     inefficient_round s = Ok tt r1
     /\ inefficient_round r1 = Ok tt r2
     /\ inefficientStringConcat s = Ok tt rN
     /\ mem r2 = mem r1 /\ mem rN = mem r1)
  /\ (exists r1 r2 rN,
        efficient_round s = Ok tt r1
        /\ efficient_round r1 = Ok tt r2
        /\ efficientStringConcat s = Ok tt rN
        /\ mem r2 = mem r1 /\ mem rN = mem r1).
Proof.
  destruct s as [m tr]. cbn [mem]. intros Hlen.
  pose proof (rebuilt_length m Hlen) as Hlen'. rewrite <- Hlen' in Hlen.
  split; do 3 eexists.
  - split; [apply inefficient_round_spec; lia|].
    split; [apply inefficient_round_spec, Hlen|].
    split; [apply inefficientStringConcat_spec; lia|].
    cbn [mem]. rewrite rebuilt_idem. split; reflexivity.
  - split; [apply efficient_round_spec; lia|].
    split; [apply efficient_round_spec, Hlen|].
    split; [apply efficientStringConcat_spec; lia|].
    cbn [mem]. rewrite rebuilt_idem. split; reflexivity.
Qed.

Lemma rounds_idempotent_witness :
  (exists r1 r2 rN,
     inefficient_round (zeroed (S STRBUFLEN)) = Ok tt r1
     /\ inefficient_round r1 = Ok tt r2
     /\ inefficientStringConcat (zeroed (S STRBUFLEN)) = Ok tt rN
     /\ mem r2 = mem r1 /\ mem rN = mem r1)
  /\ (exists r1 r2 rN,
        efficient_round (zeroed (S STRBUFLEN)) = Ok tt r1
        /\ efficient_round r1 = Ok tt r2
        /\ efficientStringConcat (zeroed (S STRBUFLEN)) = Ok tt rN
        /\ mem r2 = mem r1 /\ mem rN = mem r1).
Proof.
  apply (rounds_idempotent (zeroed (S STRBUFLEN))).
  apply Nat.ltb_lt. vm_compute. reflexivity.
Defined.

(* --------------------------------------------------------------------- *)
(** *** The store behind the array *)

Lemma rounds_trace_In x rt n : 0 < n -> In x rt -> In x (rounds_trace rt n).
Proof.
  intros Hn Hx. destruct n as [|n]; [lia|].
  cbn [rounds_trace]. apply in_or_app. left. exact Hx.
Qed.

Lemma inefficient_round_overflows : In (Store STRBUFLEN) inefficient_round_trace.
Proof.
  unfold inefficient_round_trace. apply in_or_app. left.
  change (STRBUFLEN / 8) with (S 127). cbn [inefficient_inner_trace].
  apply in_or_app. left. unfold inefficient_step_trace.
  apply in_or_app. left. left. reflexivity.
Qed.

Lemma efficient_round_overflows : In (Store STRBUFLEN) efficient_round_trace.
Proof.
  unfold efficient_round_trace. apply in_or_app. left.
  change (STRBUFLEN / 8) with (S 127). cbn [efficient_inner_trace].
  apply in_or_app. left. unfold efficient_step_trace.
  apply in_or_app. left. left. reflexivity.
Qed.

(** Every run stores to offset [STRBUFLEN], one cell behind the array. *)
Lemma run_overflows (s : machine) :
  STRBUFLEN < length (mem s) ->
  (exists r, inefficientStringConcat s = Ok tt r /\ stored STRBUFLEN r)
  /\ (exists r, efficientStringConcat s = Ok tt r /\ stored STRBUFLEN r).
Proof.
  destruct s as [m tr]. cbn [mem]. intros Hlen. split; eexists.
  - split; [apply inefficientStringConcat_spec, Hlen|].
    unfold stored. cbn [trace]. apply in_or_app. left.
    apply rounds_trace_In;
      [exact rounds_positive | exact inefficient_round_overflows].
  - split; [apply efficientStringConcat_spec, Hlen|].
    unfold stored. cbn [trace]. apply in_or_app. left.
    apply rounds_trace_In;
      [exact rounds_positive | exact efficient_round_overflows].
Qed.

(** On a storage that ends with the array, the last pass of the first
    round faults at the offset behind it. *)
Lemma inefficient_round_faults m tr :
  length m = STRBUFLEN ->
  inefficient_round {| mem := m; trace := tr |} = Fault STRBUFLEN.
Proof.
  intros Hlen. unfold inefficient_round.
  destruct m as [|x m]; [discriminate|].
  cbn [length] in Hlen. unfold STRBUFLEN in Hlen.
  erewrite bind_Ok by (apply (store_at 0 [] x m); reflexivity).
  change (STRBUFLEN / 8) with 128. unfold for_.
  apply (for_lt_fault
    (fun i s => i < 128 /\
       s = {| mem := pattern i ++ NUL :: drop (8 * i) m;
              trace := inefficient_inner_trace i ++ Store 0 :: tr |})).
  - intros i _. lia.
  - intros i s [Hi _]. exact Hi.
  - intros i s [Hi ->].
    destruct (Nat.eq_dec i 127) as [->|Hne].
    + left. rewrite inefficient_step_no_room; [reflexivity|].
      rewrite length_drop. lia.
    + right. eexists. split.
      * apply inefficient_step_spec. rewrite length_drop. lia.
      * split; [lia|]. rewrite drop_drop.
        replace (8 * i + 8) with (8 * S i) by lia.
        cbn [inefficient_inner_trace]. rewrite <- app_assoc. reflexivity.
  - lia.
  - split; [lia | reflexivity].
Qed.

Lemma efficient_round_faults m tr :
  length m = STRBUFLEN ->
  efficient_round {| mem := m; trace := tr |} = Fault STRBUFLEN.
Proof.
  intros Hlen. unfold efficient_round.
  destruct m as [|x m]; [discriminate|].
  cbn [length] in Hlen. unfold STRBUFLEN in Hlen.
  erewrite bind_Ok by (apply (store_at 0 [] x m); reflexivity).
  unfold for_.
  apply (for_lt_fault
    (fun i s => exists k, i = 8 * k /\ k < 128 /\
       s = {| mem := pattern k ++ NUL :: drop (8 * k) m;
              trace := efficient_inner_trace k ++ Store 0 :: tr |})).
  - intros i _. lia.
  - intros i s (k & -> & Hk & _). unfold STRBUFLEN. lia.
  - intros i s (k & -> & Hk & ->).
    destruct (Nat.eq_dec k 127) as [->|Hne].
    + left. rewrite efficient_step_no_room;
        [ reflexivity | apply pattern_length | unfold STRBUFLEN; lia
        | rewrite length_drop; lia ].
    + right. eexists. split.
      * apply efficient_step_spec;
          [apply pattern_length | unfold STRBUFLEN; lia
          | rewrite length_drop; lia].
      * exists (S k). split; [lia|]. split; [lia|].
        rewrite drop_drop, pattern_snoc.
        replace (8 * k + 8) with (8 * S k) by lia.
        cbn [efficient_inner_trace]. rewrite <- app_assoc. reflexivity.
  - unfold STRBUFLEN. lia.
  - exists 0. split; [reflexivity|]. split; [lia | reflexivity].
Qed.

Lemma array_alone_faults (s : machine) :
  length (mem s) = STRBUFLEN ->
  inefficientStringConcat s = Fault STRBUFLEN
  /\ efficientStringConcat s = Fault STRBUFLEN.
Proof.
  destruct s as [m tr]. cbn [mem]. intros Hlen. split.
  - apply for_first_fault;
      [exact rounds_positive | apply inefficient_round_faults, Hlen].
  - apply for_first_fault;
      [exact rounds_positive | apply efficient_round_faults, Hlen].
Qed.

(** C3 fails on the code.  On zeroed storage with one cell behind the
    array, both functions end normally and have stored to offset 1024,
    which is outside [0 .. 1023]: the last [strncat] of a round writes 'R'
    to 1022, 'i' to 1023 and the terminator to 1024.  On storage that ends
    with the array, both runs fault at offset 1024. *)
Theorem terminator_behind_array :
  (exists r, inefficientStringConcat (zeroed (S STRBUFLEN)) = Ok tt r
             /\ stored STRBUFLEN r)
  /\ (exists r, efficientStringConcat (zeroed (S STRBUFLEN)) = Ok tt r
                /\ stored STRBUFLEN r)
  /\ inefficientStringConcat (zeroed STRBUFLEN) = Fault STRBUFLEN
  /\ efficientStringConcat (zeroed STRBUFLEN) = Fault STRBUFLEN.
Proof.
  assert (Hlen : STRBUFLEN < length (mem (zeroed (S STRBUFLEN))))
    by (apply Nat.ltb_lt; vm_compute; reflexivity).
  destruct (run_overflows _ Hlen) as [H1 H2].
  split; [exact H1|]. split; [exact H2|].
  apply array_alone_faults. apply length_replicate.
Qed.

(* --------------------------------------------------------------------- *)
(** *** The invariant of the efficient inner loop *)

Lemma efficient_step_trace_accesses i :
  efficient_step_trace i = rev (efficient_step_accesses i).
Proof.
  unfold efficient_step_trace, cat_trace, stores, loads.
  rewrite !Nat.sub_diag. cbn.
  repeat (f_equal; try lia).
Qed.

Lemma efficient_step_accesses_forward i :
  Forall (fun x => i <= offset x) (efficient_step_accesses i).
Proof.
  unfold efficient_step_accesses.
  repeat (constructor; [cbn [offset]; lia|]). constructor.
Qed.

(** One pass at offset [i], from any state with a terminator at [i]. *)
Lemma efficient_step_at i s :
  i + 8 <= STRBUFLEN ->
  STRBUFLEN < length (mem s) ->
  mem s !! i = Some NUL ->
  efficient_step i s
  = Ok tt {| mem := (take i (mem s) ++ JoPaGeRi)
                      ++ NUL :: drop (i + 9) (mem s);
             trace := efficient_step_trace i ++ trace s |}.
Proof.
  destruct s as [m tr]. cbn [mem trace]. intros Hi Hlen Hnul.
  rewrite <- (take_drop_middle m i NUL Hnul) at 1.
  rewrite efficient_step_spec;
    [ | rewrite length_take; lia | exact Hi | rewrite length_drop; lia ].
  rewrite drop_drop. replace (S i + 8) with (i + 9) by lia. reflexivity.
Qed.

(** The invariant proper: at every guard test the counter is a multiple
    of 8, the storage has kept its size, and the cell at the counter
    holds the terminator. *)
Lemma efficient_heads (s0 s1 : machine) :
  STRBUFLEN < length (mem s0) ->
  store 0 NUL s0 = Ok tt s1 ->
  forall i s,
    loop_head STRBUFLEN (fun i => i + 8) efficient_step 0 s1 i s ->
    (exists k, i = 8 * k) /\ i <= STRBUFLEN
    /\ length (mem s) = length (mem s0)
    /\ mem s !! i = Some NUL.
Proof.
  intros Hlen Hreset i s Hhead.
  induction Hhead as [|i s s' _ IH Hguard Hbody].
  - unfold store in Hreset.
    destruct (Nat.ltb_spec 0 (length (mem s0))) as [Hpos|]; [|discriminate].
    injection Hreset as <-. cbn [mem].
    split; [exists 0; reflexivity|]. split; [lia|].
    split; [apply length_insert|].
    apply list_lookup_insert_eq. exact Hpos.
  - destruct IH as ([k Hik] & _ & Hsize & Hnul).
    apply Nat.ltb_lt in Hguard. unfold STRBUFLEN in Hguard, Hlen.
    rewrite efficient_step_at in Hbody;
      [ | unfold STRBUFLEN; lia | rewrite Hsize; unfold STRBUFLEN; lia
        | exact Hnul ].
    injection Hbody as <-. cbn [mem].
    split; [exists (S k); lia|]. split; [unfold STRBUFLEN; lia|].
    assert (Hk : length (take i (mem s) ++ JoPaGeRi) = i + 8).
    { rewrite length_app, length_take. change (length JoPaGeRi) with 8. lia. }
    split.
    + rewrite length_app, Hk. cbn [length]. rewrite length_drop. lia.
    + apply list_lookup_middle. rewrite Hk. reflexivity.
Qed.

(** C9.  Invariant of the inner loop of [efficientStringConcat].  Whenever
    the loop, started after the reset of a round, tests its guard at a
    counter [i] below [STRBUFLEN], [i] is a multiple of 8 and the cell at
    offset [i] holds the terminator: the string at [STRBUFFER+i] is empty.
    The pass then ends normally; it puts "Jo", "Pa", "Ge" and "Ri" at
    offsets [i], [i+2], [i+4] and [i+6] and the terminator at [i+8], it
    leaves the cells before [i] and after [i+8] as they were, and every
    load and store it makes is at offset [i] or later: each scan is the
    single load of its own target cell. *)
Theorem efficient_loop_invariant (s0 s1 s : machine) (i : nat) :
  STRBUFLEN < length (mem s0) ->
  store 0 NUL s0 = Ok tt s1 ->
  loop_head STRBUFLEN (fun i => i + 8) efficient_step 0 s1 i s ->
  i < STRBUFLEN ->
  (exists k, i = 8 * k)
  /\ mem s !! i = Some NUL
  /\ cstring i s = []
  /\ exists s',
       efficient_step i s = Ok tt s'
       /\ mem s' = take i (mem s) ++ (Jo ++ Pa ++ Ge ++ Ri)
                     ++ NUL :: drop (i + 9) (mem s)
       /\ trace s' = rev (efficient_step_accesses i) ++ trace s
       /\ Forall (fun x => i <= offset x) (efficient_step_accesses i).
Proof.
  intros Hlen Hreset Hhead Hi.
  destruct (efficient_heads s0 s1 Hlen Hreset i s Hhead)
    as ([k ->] & _ & Hsize & Hnul).
  split; [exists k; reflexivity|]. split; [exact Hnul|]. split.
  - unfold cstring. rewrite <- (take_drop_middle _ _ _ Hnul) at 1.
    rewrite drop_app_length' by (rewrite length_take; lia).
    cbn [upto_nul]. rewrite Ascii.eqb_refl. reflexivity.
  - eexists. split.
    + apply efficient_step_at;
        [unfold STRBUFLEN in *; lia | rewrite Hsize; exact Hlen | exact Hnul].
    + cbn [mem trace]. rewrite <- app_assoc, efficient_step_trace_accesses.
      split; [reflexivity|]. split; [reflexivity|].
      apply efficient_step_accesses_forward.
Qed.

Lemma efficient_loop_invariant_witness :
  exists s',
    efficient_step 8
      {| mem := JoPaGeRi ++ replicate (S STRBUFLEN - 8) NUL;
         trace := rev (efficient_step_accesses 0) ++ [Store 0] |}
    = Ok tt s'
    /\ cstring 0 s' = JoPaGeRi ++ JoPaGeRi.
Proof.
  destruct (efficient_loop_invariant
              (zeroed (S STRBUFLEN))
              {| mem := replicate (S STRBUFLEN) NUL; trace := [Store 0] |}
              {| mem := JoPaGeRi ++ replicate (S STRBUFLEN - 8) NUL;
                 trace := rev (efficient_step_accesses 0) ++ [Store 0] |}
              8)
    as (_ & _ & _ & s' & Hstep & Hmem & _).
  - apply Nat.ltb_lt. vm_compute. reflexivity.
  - vm_compute. reflexivity.
  - apply (head_next STRBUFLEN (fun i => i + 8) efficient_step 0 _ 0
             {| mem := replicate (S STRBUFLEN) NUL; trace := [Store 0] |}).
    + apply head_first.
    + reflexivity.
    + vm_compute. reflexivity.
  - apply Nat.ltb_lt. vm_compute. reflexivity.
  - exists s'. split; [exact Hstep|].
    unfold cstring. rewrite Hmem. reflexivity.
Defined.

(* --------------------------------------------------------------------- *)
(** *** Work: the number of accesses *)

Lemma length_loads a n : length (loads a n) = n.
Proof. unfold loads. rewrite length_rev, length_fmap, length_seq. reflexivity. Qed.

Lemma length_stores a n : length (stores a n) = n.
Proof. unfold stores. rewrite length_rev, length_fmap, length_seq. reflexivity. Qed.

Lemma length_cat_trace dest e k : length (cat_trace dest e k) = k + (e - dest) + 2.
Proof.
  unfold cat_trace. cbn [length].
  rewrite length_app, length_stores, length_loads. lia.
Qed.

Lemma length_inefficient_step_trace k :
  length (inefficient_step_trace k) = 32 * k + 28.
Proof.
  unfold inefficient_step_trace. rewrite !length_app, !length_cat_trace. lia.
Qed.

Lemma length_efficient_step_trace i : length (efficient_step_trace i) = 16.
Proof.
  unfold efficient_step_trace. rewrite !length_app, !length_cat_trace. lia.
Qed.

(** [k] passes of the inefficient loop make a number of accesses that is
    quadratic in [k]; [k] passes of the efficient loop make [16 * k]. *)
Lemma length_inefficient_inner_trace k :
  length (inefficient_inner_trace k) = 16 * k * k + 12 * k.
Proof.
  induction k as [|k IH]; [reflexivity|].
  cbn [inefficient_inner_trace].
  rewrite length_app, length_inefficient_step_trace, IH. lia.
Qed.

Lemma length_efficient_inner_trace k :
  length (efficient_inner_trace k) = 16 * k.
Proof.
  induction k as [|k IH]; [reflexivity|].
  cbn [efficient_inner_trace].
  rewrite length_app, length_efficient_step_trace, IH. lia.
Qed.

Lemma length_rounds_trace rt n : length (rounds_trace rt n) = n * length rt.
Proof.
  induction n as [|n IH]; [reflexivity|].
  cbn [rounds_trace]. rewrite length_app, IH. lia.
Qed.

(** A round of the efficient function makes 2049 accesses to the storage,
    a round of the inefficient one 263681. *)
Remark work_per_round :
  length efficient_round_trace = 16 * 128 + 1
  /\ length inefficient_round_trace = 16 * 128 * 128 + 12 * 128 + 1.
Proof.
  unfold efficient_round_trace, inefficient_round_trace.
  change (STRBUFLEN / 8) with 128.
  rewrite !length_app, length_efficient_inner_trace,
    length_inefficient_inner_trace.
  split; reflexivity.
Qed.

(** Counted in accesses, a run of the efficient function does no more
    work than a run of the inefficient one over as many rounds. *)
Remark efficient_work_le n :
  length (rounds_trace efficient_round_trace n)
  <= length (rounds_trace inefficient_round_trace n).
Proof.
  rewrite !length_rounds_trace.
  destruct work_per_round as [-> ->]. apply Nat.mul_le_mono_l. lia.
Qed.

(* --------------------------------------------------------------------- *)
(** *** Where the accesses go *)

Lemma Forall_loads (P : access -> Prop) a n :
  (forall j, a <= j < a + n -> P (Load j)) -> Forall P (loads a n).
Proof.
  induction n as [|n IH]; intros H; [constructor|].
  rewrite loads_S. constructor; [apply H; lia|].
  apply IH. intros j Hj. apply H. lia.
Qed.

Lemma Forall_stores (P : access -> Prop) a n :
  (forall j, a <= j < a + n -> P (Store j)) -> Forall P (stores a n).
Proof.
  induction n as [|n IH]; intros H; [constructor|].
  rewrite stores_S. constructor; [apply H; lia|].
  apply IH. intros j Hj. apply H. lia.
Qed.

Lemma within_cat_trace dest e :
  dest <= e -> e + 2 <= STRBUFLEN -> Forall within (cat_trace dest e 2).
Proof.
  intros Hd He. unfold cat_trace. constructor; [cbn [within]; lia|].
  apply Forall_app. split.
  - apply Forall_stores. intros j Hj. cbn [within]. lia.
  - apply Forall_loads. intros j Hj. cbn [within]. lia.
Qed.

Lemma within_inefficient_step k :
  k < 128 -> Forall within (inefficient_step_trace k).
Proof.
  intros Hk. unfold inefficient_step_trace.
  repeat (apply Forall_app; split);
    apply within_cat_trace; unfold STRBUFLEN; lia.
Qed.

Lemma within_efficient_step i :
  i + 8 <= STRBUFLEN -> Forall within (efficient_step_trace i).
Proof.
  intros Hi. unfold efficient_step_trace.
  repeat (apply Forall_app; split);
    apply within_cat_trace; unfold STRBUFLEN in *; lia.
Qed.

Lemma within_inefficient_inner k :
  k <= 128 -> Forall within (inefficient_inner_trace k).
Proof.
  induction k as [|k IH]; intros Hk; [constructor|].
  cbn [inefficient_inner_trace]. apply Forall_app. split.
  - apply within_inefficient_step. lia.
  - apply IH. lia.
Qed.

Lemma within_efficient_inner k :
  k <= 128 -> Forall within (efficient_inner_trace k).
Proof.
  induction k as [|k IH]; intros Hk; [constructor|].
  cbn [efficient_inner_trace]. apply Forall_app. split.
  - apply within_efficient_step. unfold STRBUFLEN. lia.
  - apply IH. lia.
Qed.

Lemma within_rounds (rt : list access) n :
  Forall within rt -> Forall within (rounds_trace rt n).
Proof.
  intros Hrt. induction n as [|n IH]; [constructor|].
  cbn [rounds_trace]. apply Forall_app. split; assumption.
Qed.

Lemma within_inefficient_round : Forall within inefficient_round_trace.
Proof.
  unfold inefficient_round_trace. apply Forall_app. split.
  - apply within_inefficient_inner. reflexivity.
  - constructor; [cbn [within]; unfold STRBUFLEN; lia | constructor].
Qed.

Lemma within_efficient_round : Forall within efficient_round_trace.
Proof.
  unfold efficient_round_trace. apply Forall_app. split.
  - apply within_efficient_inner. reflexivity.
  - constructor; [cbn [within]; unfold STRBUFLEN; lia | constructor].
Qed.

(** Neither function reads outside the array, and neither stores
    further than the one cell behind it: every load of a run is at an
    offset below [STRBUFLEN], every store at an offset up to
    [STRBUFLEN]. *)
Theorem accesses_within_reach (s : machine) :
  STRBUFLEN < length (mem s) ->
  (exists r new, inefficientStringConcat s = Ok tt r
                 /\ trace r = new ++ trace s /\ Forall within new)
  /\ (exists r new, efficientStringConcat s = Ok tt r
                    /\ trace r = new ++ trace s /\ Forall within new).
Proof.
  destruct s as [m tr]. cbn [mem trace]. intros Hlen. split; do 2 eexists.
  - split; [apply inefficientStringConcat_spec, Hlen|].
    cbn [trace]. split; [reflexivity|].
    apply within_rounds, within_inefficient_round.
  - split; [apply efficientStringConcat_spec, Hlen|].
    cbn [trace]. split; [reflexivity|].
    apply within_rounds, within_efficient_round.
Qed.

Lemma accesses_within_reach_witness :
  (exists r new, inefficientStringConcat (zeroed (S STRBUFLEN)) = Ok tt r
                 /\ trace r = new ++ trace (zeroed (S STRBUFLEN))
                 /\ Forall within new)
  /\ (exists r new, efficientStringConcat (zeroed (S STRBUFLEN)) = Ok tt r
                    /\ trace r = new ++ trace (zeroed (S STRBUFLEN))
                    /\ Forall within new).
Proof.
  apply (accesses_within_reach (zeroed (S STRBUFLEN))).
  apply Nat.ltb_lt. vm_compute. reflexivity.
Defined.

(* --------------------------------------------------------------------- *)
(** *** What a run leaves untouched *)

Lemma rebuilt_tail m :
  drop (S STRBUFLEN) (rebuilt m) = drop (S STRBUFLEN) m.
Proof.
  unfold rebuilt.
  change (pattern (STRBUFLEN / 8) ++ NUL :: drop (S STRBUFLEN) m)
    with (pattern (STRBUFLEN / 8) ++ [NUL] ++ drop (S STRBUFLEN) m).
  rewrite app_assoc. apply drop_app_length'.
  rewrite length_app, pattern_length. reflexivity.
Qed.

Lemma rebuilt_terminator m : rebuilt m !! STRBUFLEN = Some NUL.
Proof.
  unfold rebuilt. apply list_lookup_middle.
  rewrite pattern_length. reflexivity.
Qed.

(** A run of either function keeps the size of the storage and every
    cell from offset [STRBUFLEN + 1] on; the cell at offset [STRBUFLEN],
    the first one behind the array, holds the terminator afterwards,
    whatever it held before. *)
Theorem run_frame (s : machine) :
  STRBUFLEN < length (mem s) ->
  (exists r, inefficientStringConcat s = Ok tt r
             /\ length (mem r) = length (mem s)
             /\ drop (S STRBUFLEN) (mem r) = drop (S STRBUFLEN) (mem s)
             /\ mem r !! STRBUFLEN = Some NUL)
  /\ (exists r, efficientStringConcat s = Ok tt r
                /\ length (mem r) = length (mem s)
                /\ drop (S STRBUFLEN) (mem r) = drop (S STRBUFLEN) (mem s)
                /\ mem r !! STRBUFLEN = Some NUL).
Proof.
  destruct s as [m tr]. cbn [mem]. intros Hlen. split; eexists.
  - split; [apply inefficientStringConcat_spec, Hlen|]. cbn [mem].
    split; [apply rebuilt_length, Hlen|].
    split; [apply rebuilt_tail | apply rebuilt_terminator].
  - split; [apply efficientStringConcat_spec, Hlen|]. cbn [mem].
    split; [apply rebuilt_length, Hlen|].
    split; [apply rebuilt_tail | apply rebuilt_terminator].
Qed.

Lemma run_frame_witness :
  (exists r, inefficientStringConcat (zeroed (STRBUFLEN + 4)) = Ok tt r
             /\ length (mem r) = length (mem (zeroed (STRBUFLEN + 4)))
             /\ drop (S STRBUFLEN) (mem r)
                = drop (S STRBUFLEN) (mem (zeroed (STRBUFLEN + 4)))
             /\ mem r !! STRBUFLEN = Some NUL)
  /\ (exists r, efficientStringConcat (zeroed (STRBUFLEN + 4)) = Ok tt r
                /\ length (mem r) = length (mem (zeroed (STRBUFLEN + 4)))
                /\ drop (S STRBUFLEN) (mem r)
                   = drop (S STRBUFLEN) (mem (zeroed (STRBUFLEN + 4)))
                /\ mem r !! STRBUFLEN = Some NUL).
Proof.
  apply (run_frame (zeroed (STRBUFLEN + 4))).
  apply Nat.ltb_lt. vm_compute. reflexivity.
Defined.

(* --------------------------------------------------------------------- *)
(** *** The two passes, side by side *)




(** The states at the guard tests of the inefficient inner loop. *)
Lemma inefficient_heads (s0 s1 : machine) :
  STRBUFLEN < length (mem s0) ->
  store 0 NUL s0 = Ok tt s1 ->
  forall i s,
    loop_head (STRBUFLEN / 8) S inefficient_step 0 s1 i s ->
    i <= 128
    /\ exists post tr,
         s = {| mem := pattern i ++ NUL :: post; trace := tr |}
         /\ length post = length (mem s0) - (8 * i + 1).
Proof.
  intros Hlen Hreset i s Hhead.
  induction Hhead as [|i s s' _ IH Hguard Hbody].
  - unfold store in Hreset.
    destruct (Nat.ltb_spec 0 (length (mem s0))) as [Hpos|]; [|discriminate].
    injection Hreset as <-. split; [lia|].
    destruct (mem s0) as [|x m]; [cbn in Hpos; lia|].
    exists m, (Store 0 :: trace s0). split; [reflexivity|].
    cbn [length]. lia.
  - destruct IH as (_ & post & tr & -> & Hpost).
    apply Nat.ltb_lt in Hguard. change (STRBUFLEN / 8) with 128 in Hguard.
    unfold STRBUFLEN in Hlen.
    rewrite inefficient_step_spec in Hbody by lia.
    injection Hbody as <-. split; [lia|].
    do 2 eexists. split; [reflexivity|].
    rewrite length_drop. lia.
Qed.

(** Invariant of the inner loop of [inefficientStringConcat].  Whenever
    the loop, started after the reset of a round, tests its guard at a
    counter [i] below 128, the string at [STRBUFFER] is "JoPaGeRi" repeated
    [i] times and [strlen] finds its end after [8 * i] characters: every
    append of the pass starts from the beginning of a string that has
    grown by eight characters since the pass before.  The pass that
    follows ends normally and leaves "JoPaGeRi" repeated [i + 1] times. *)
Theorem inefficient_loop_invariant (s0 s1 s : machine) (i : nat) :
  STRBUFLEN < length (mem s0) ->
  store 0 NUL s0 = Ok tt s1 ->
  loop_head (STRBUFLEN / 8) S inefficient_step 0 s1 i s ->
  i < STRBUFLEN / 8 ->
  cstring 0 s = pattern i
  /\ (exists s_, strlen 0 s = Ok (8 * i) s_ /\ mem s_ = mem s)
  /\ exists s',
       inefficient_step i s = Ok tt s'
       /\ cstring 0 s' = pattern (S i).
Proof.
  intros Hlen Hreset Hhead Hi. change (STRBUFLEN / 8) with 128 in Hi.
  destruct (inefficient_heads s0 s1 Hlen Hreset i s Hhead)
    as (_ & post & tr & -> & Hpost).
  unfold STRBUFLEN in Hlen.
  split; [|split].
  - unfold cstring. cbn [mem]. rewrite drop_0.
    apply upto_nul_terminated, nul_free_pattern.
  - eexists. split.
    + rewrite <- (pattern_length i).
      apply (strlen_spec [] (pattern i) post tr), nul_free_pattern.
    + reflexivity.
  - eexists. split; [apply inefficient_step_spec; lia|].
    unfold cstring. cbn [mem]. rewrite drop_0.
    apply upto_nul_terminated, nul_free_pattern.
Qed.

Lemma inefficient_loop_invariant_witness :
  cstring 0 {| mem := JoPaGeRi ++ replicate (S STRBUFLEN - 8) NUL;
               trace := inefficient_step_trace 0 ++ [Store 0] |}
  = pattern 1
  /\ (exists s_,
        strlen 0 {| mem := JoPaGeRi ++ replicate (S STRBUFLEN - 8) NUL;
                    trace := inefficient_step_trace 0 ++ [Store 0] |}
        = Ok (8 * 1) s_
        /\ mem s_ = JoPaGeRi ++ replicate (S STRBUFLEN - 8) NUL)
  /\ exists s',
       inefficient_step 1
         {| mem := JoPaGeRi ++ replicate (S STRBUFLEN - 8) NUL;
            trace := inefficient_step_trace 0 ++ [Store 0] |}
       = Ok tt s'
       /\ cstring 0 s' = pattern 2.
Proof.
  apply (inefficient_loop_invariant
           (zeroed (S STRBUFLEN))
           {| mem := replicate (S STRBUFLEN) NUL; trace := [Store 0] |}
           {| mem := JoPaGeRi ++ replicate (S STRBUFLEN - 8) NUL;
              trace := inefficient_step_trace 0 ++ [Store 0] |}
           1).
  - apply Nat.ltb_lt. vm_compute. reflexivity.
  - vm_compute. reflexivity.
  - apply (head_next (STRBUFLEN / 8) S inefficient_step 0 _ 0
             {| mem := replicate (S STRBUFLEN) NUL; trace := [Store 0] |}).
    + apply head_first.
    + reflexivity.
    + vm_compute. reflexivity.
  - apply Nat.ltb_lt. vm_compute. reflexivity.
Defined.

(* --------------------------------------------------------------------- *)
(** *** The bound that bounds nothing *)

(** The third argument of [strncat] limits what is taken from the
    source.  Every call of the two functions passes a token of two
    characters and a bound of at least two ([STRBUFLEN], or
    [STRBUFLEN - i] with [i <= STRBUFLEN - 8]); such a call does what the
    call with bound 2 does, on every storage: the bound never shortens
    an append and never keeps one inside the array. *)
Theorem bound_never_applies (dest n : nat) (tok : string) (s : machine) :
  In tok ["Jo"; "Pa"; "Ge"; "Ri"]%string ->
  2 <= n ->
  strncat dest tok n s = strncat dest tok 2 s
  /\ taken n (list_ascii_of_string tok) = list_ascii_of_string tok.
Proof.
  intros Htok Hn.
  assert (Hfree : nul_free (list_ascii_of_string tok)).
  { cbn [In] in Htok.
    destruct Htok as [<-|[<-|[<-|[<-|[]]]]]; auto with tokens. }
  assert (Hlen : length (list_ascii_of_string tok) = 2).
  { cbn [In] in Htok.
    destruct Htok as [<-|[<-|[<-|[<-|[]]]]]; reflexivity. }
  assert (Ht : forall k, 2 <= k ->
             taken k (list_ascii_of_string tok) = list_ascii_of_string tok)
    by (intros k Hk; apply taken_all; [exact Hfree | lia]).
  split; [|apply Ht, Hn].
  unfold strncat. rewrite (Ht n Hn), (Ht 2 (le_n 2)). reflexivity.
Qed.

Lemma bound_never_applies_witness :
  strncat 1016 "Ri" (STRBUFLEN - 1016) (zeroed (S STRBUFLEN))
  = strncat 1016 "Ri" 2 (zeroed (S STRBUFLEN))
  /\ taken (STRBUFLEN - 1016) (list_ascii_of_string "Ri")
     = list_ascii_of_string "Ri".
Proof.
  apply bound_never_applies.
  - cbn [In]. right. right. right. left. reflexivity.
  - apply Nat.leb_le. vm_compute. reflexivity.
Defined.

End MemFacts.

(* ===================================================================== *)
(** ** The runner: what [main] prints and returns *)
(* ===================================================================== *)

Section RunnerFacts.
Import Clock Mem Runner.

Local Open Scope string_scope.

Lemma append_assoc (a b c : string) : (a ++ b) ++ c = a ++ (b ++ c).
Proof. induction a as [|x a IH]; cbn; [reflexivity | rewrite IH; reflexivity]. Qed.

Lemma newlines_app (a b : string) :
  newlines (a ++ b) = (newlines a + newlines b)%nat.
Proof.
  induction a as [|x a IH]; cbn [append newlines]; [reflexivity|].
  rewrite IH. lia.
Qed.

Lemma newlines_digits (d : Decimal.uint) :
  newlines (NilEmpty.string_of_uint d) = 0%nat.
Proof. induction d; cbn; assumption || reflexivity. Qed.

Lemma newlines_dec (z : Z) : newlines (dec z) = 0%nat.
Proof.
  unfold dec, NilZero.string_of_int, NilZero.string_of_uint.
  destruct (Z.to_int z) as [d|d]; destruct d; cbn;
    try reflexivity; apply newlines_digits.
Qed.

Lemma newlines_formatted (d : timespec) : newlines (formatted d) = 0%nat.
Proof.
  unfold formatted. rewrite !newlines_app, !newlines_dec. reflexivity.
Qed.

(** On a [long] the three printed numbers are the ones of the
    specification: division and remainder do not wrap. *)
Lemma show_formatted (d : timespec) :
  Long.fits (tv_nsec d) -> show d = formatted d.
Proof.
  intros Hfits. unfold show, formatted, remainder_ns, timeSpecMS.
  unfold Long.fits, Long.MIN, Long.MAX in Hfits.
  pose proof (Z.quot_rem' (tv_nsec d) 1000000) as Hqr.
  assert (Hrem : (Z.abs (Z.rem (tv_nsec d) 1000000) < 1000000)%Z)
    by (apply Z.rem_bound_abs; lia).
  assert (Hsign : (0 <= Z.rem (tv_nsec d) 1000000 * tv_nsec d)%Z)
    by (apply Z.rem_sign_mul; lia).
  assert (Hq : Long.div (tv_nsec d) 1000000 = (Z.quot (tv_nsec d) 1000000))
    by (apply wrap_fits; unfold Long.fits, Long.MIN, Long.MAX; nia).
  rewrite Hq.
  assert (Hm : Long.mul (Z.quot (tv_nsec d) 1000000) 1000000
               = (Z.quot (tv_nsec d) 1000000 * 1000000)%Z)
    by (apply wrap_fits; unfold Long.fits, Long.MIN, Long.MAX; nia).
  rewrite Hm.
  assert (Hr : Long.sub (tv_nsec d) (Z.quot (tv_nsec d) 1000000 * 1000000)
               = (tv_nsec d - Z.quot (tv_nsec d) 1000000 * 1000000)%Z)
    by (apply wrap_fits; unfold Long.fits, Long.MIN, Long.MAX; nia).
  rewrite Hr. reflexivity.
Qed.

Lemma diff_fits (s e : timespec) : Long.fits (tv_nsec (diff s e)).
Proof.
  unfold diff. destruct (_ <? 0)%Z; cbn [tv_nsec]; apply wrap_range.
Qed.

Lemma timeOperation_spec (function : M machine unit) (p : process) r :
  function (ram p) = Ok tt r ->
  timeOperation function p
  = Ok {| start := clock p (trace (ram p)) (ticks p);
          end_ := clock p (trace r) (S (ticks p));
          spent := diff (clock p (trace (ram p)) (ticks p))
                        (clock p (trace r) (S (ticks p))) |}
       {| ram := r; clock := clock p; ticks := S (S (ticks p));
          stdout := stdout p |}.
Proof.
  intros Hrun. unfold timeOperation, bind, getTime, call, ret.
  cbn [ram clock ticks stdout]. rewrite Hrun. reflexivity.
Qed.

(** The statements after the argument check, on a storage with a cell
    behind the array. *)
Lemma timed_runs_spec m tr clk n out :
  (STRBUFLEN < length m)%nat ->
  timed_runs {| ram := {| mem := m; trace := tr |}; clock := clk;
                ticks := n; stdout := out |}
  = Ok 0%Z
      {| ram := {| mem := rebuilt m;
                   trace := (rounds_trace efficient_round_trace 10000
                             ++ rounds_trace inefficient_round_trace 10000
                             ++ tr)%list |};
         clock := clk;
         ticks := S (S (S (S n)));
         stdout :=
           out
           ++ (formatted
                 (diff (clk tr n)
                       (clk (rounds_trace inefficient_round_trace 10000
                             ++ tr)%list (S n)))
               ++ endl)
           ++ (formatted
                 (diff (clk (rounds_trace inefficient_round_trace 10000
                             ++ tr)%list (S (S n)))
                       (clk (rounds_trace efficient_round_trace 10000
                             ++ rounds_trace inefficient_round_trace 10000
                             ++ tr)%list (S (S (S n)))))
               ++ endl) |}.
Proof.
  intros Hlen. unfold timed_runs.
  erewrite bind_Ok
    by (apply timeOperation_spec; cbn [ram];
        apply inefficientStringConcat_spec; exact Hlen).
  unfold put at 1 2. unfold bind at 1 2. cbn [ram clock ticks stdout spent].
  erewrite bind_Ok
    by (apply timeOperation_spec; cbn [ram];
        apply efficientStringConcat_spec;
        rewrite rebuilt_length; exact Hlen).
  unfold put, bind, ret. cbn [ram clock ticks stdout spent trace].
  rewrite !show_formatted by apply diff_fits.
  rewrite rebuilt_idem, !append_assoc. reflexivity.
Qed.

Lemma main_after_check unfinished argc argv (p q : process) :
  argument_check unfinished argc argv p = Ok tt q ->
  main unfinished argc argv p = timed_runs q.
Proof.
  intros Hcheck. unfold main.
  exact (bind_Ok _ (fun _ => timed_runs) _ _ _ Hcheck).
Qed.

Lemma argument_check_skipped unfinished argc argv (p : process) :
  (argc <= 1)%Z -> argument_check unfinished argc argv p = Ok tt p.
Proof.
  intros Hargc. unfold argument_check.
  destruct (Z.gtb_spec argc 1); [lia | reflexivity].
Qed.

(** C6.  The statements of [main] after the argument check write two
    lines to standard output and no more.  The first line is the
    duration between the reading taken before the accesses of
    [inefficientStringConcat] and the reading taken right after them, the
    second the same for [efficientStringConcat], which runs on the storage
    that the first left.  Each line reads
    [<seconds>s <milliseconds>ms <remainder-nanoseconds>ns] with
    milliseconds = tv_nsec / 1000000 and
    remainder = tv_nsec - milliseconds * 1000000, and ends in one newline;
    the text written holds these two newlines and no other.  When
    [argc <= 1] the check does nothing and this is all that [main]
    writes. *)
Theorem main_prints_two_lines unfinished argc argv (p q : process) :
  argument_check unfinished argc argv p = Ok tt q ->
  (STRBUFLEN < length (mem (ram q)))%nat ->
  exists s1 s2 p',
    inefficientStringConcat (ram q) = Ok tt s1
    /\ efficientStringConcat s1 = Ok tt s2
    /\ main unfinished argc argv p = Ok 0%Z p'
    /\ ram p' = s2
    /\ stdout p'
       = stdout q
         ++ (formatted (diff (reading_at q (ram q) 0) (reading_at q s1 1))
             ++ endl)
         ++ (formatted (diff (reading_at q s1 2) (reading_at q s2 3))
             ++ endl)
    /\ (forall d1 d2,
          newlines (formatted d1) = 0%nat
          /\ newlines ((formatted d1 ++ endl) ++ (formatted d2 ++ endl))
             = 2%nat)
    /\ ((argc <= 1)%Z -> q = p).
Proof.
  intros Hcheck Hlen. rewrite (main_after_check _ _ _ _ _ Hcheck).
  destruct q as [[m tr] clk n out]. cbn [ram mem] in Hlen.
  do 3 eexists.
  split; [apply inefficientStringConcat_spec, Hlen|].
  split; [apply efficientStringConcat_spec; rewrite rebuilt_length;
          exact Hlen|].
  split; [apply timed_runs_spec, Hlen|].
  cbn [ram stdout]. rewrite rebuilt_idem.
  split; [reflexivity|]. split; [reflexivity|]. split.
  - intros d1 d2. rewrite !newlines_app, !newlines_formatted.
    split; reflexivity.
  - intros Hargc. rewrite (argument_check_skipped _ _ _ _ Hargc) in Hcheck.
    injection Hcheck as <-. reflexivity.
Qed.

Lemma main_prints_two_lines_witness :
  exists s1 s2 p',
    inefficientStringConcat (ram boot) = Ok tt s1
    /\ efficientStringConcat s1 = Ok tt s2
    /\ main idle 1%Z ["schlemiel"] boot = Ok 0%Z p'
    /\ ram p' = s2
    /\ stdout p'
       = stdout boot
         ++ (formatted (diff (reading_at boot (ram boot) 0)
                             (reading_at boot s1 1))
             ++ endl)
         ++ (formatted (diff (reading_at boot s1 2) (reading_at boot s2 3))
             ++ endl)
    /\ (forall d1 d2,
          newlines (formatted d1) = 0%nat
          /\ newlines ((formatted d1 ++ endl) ++ (formatted d2 ++ endl))
             = 2%nat)
    /\ ((1 <= 1)%Z -> boot = boot).
Proof.
  apply (main_prints_two_lines idle 1%Z ["schlemiel"] boot boot).
  - reflexivity.
  - apply Nat.ltb_lt. vm_compute. reflexivity.
Defined.

(** The text of a run without arguments whose clock advances by a third
    of a second per reading. *)
Example main_on_boot :
  exists p',
    main idle 1%Z ["schlemiel"] boot = Ok 0%Z p'
    /\ stdout p' = "0s 333ms 333333ns" ++ endl ++ "0s 333ms 333334ns" ++ endl.
Proof.
  eexists. split.
  - rewrite (main_after_check idle 1%Z ["schlemiel"] boot boot eq_refl).
    apply timed_runs_spec. apply Nat.ltb_lt. vm_compute. reflexivity.
  - cbn [stdout clock]. vm_compute. reflexivity.
Qed.

(** Without a cell behind the array the statements after the argument
    check fault in the first benchmark. *)
Lemma timed_runs_need_slack (p : process) :
  length (mem (ram p)) = STRBUFLEN -> timed_runs p = Fault STRBUFLEN.
Proof.
  intros Hlen. unfold timed_runs.
  unfold bind at 1. unfold timeOperation, bind, getTime, call.
  cbn [ram clock ticks stdout].
  rewrite (proj1 (array_alone_faults (ram p) Hlen)). reflexivity.
Qed.

(** With a clock that does not run backwards across either benchmark,
    every number that [main] prints after the argument check is in
    range: seconds at least 0, milliseconds in [0, 999], the rest in
    [0, 999999].  The four readings are the ones taken before and after
    the accesses of [inefficientStringConcat] and before and after those
    of [efficientStringConcat], in this order. *)
Theorem main_prints_in_range unfinished argc argv (p q : process)
    (s1 s2 : machine) :
  argument_check unfinished argc argv p = Ok tt q ->
  (STRBUFLEN < length (mem (ram q)))%nat ->
  inefficientStringConcat (ram q) = Ok tt s1 ->
  efficientStringConcat s1 = Ok tt s2 ->
  reading (reading_at q (ram q) 0) ->
  reading (reading_at q s1 1) ->
  reading (reading_at q s1 2) ->
  reading (reading_at q s2 3) ->
  later (reading_at q (ram q) 0) (reading_at q s1 1) ->
  later (reading_at q s1 2) (reading_at q s2 3) ->
  exists p' d1 d2,
    main unfinished argc argv p = Ok 0%Z p'
    /\ ram p' = s2
    /\ ticks p' = (4 + ticks q)%nat
    /\ d1 = diff (reading_at q (ram q) 0) (reading_at q s1 1)
    /\ d2 = diff (reading_at q s1 2) (reading_at q s2 3)
    /\ stdout p' = stdout q ++ (show d1 ++ endl) ++ (show d2 ++ endl)
    /\ (0 <= tv_sec d1 /\ 0 <= timeSpecMS d1 <= 999
        /\ 0 <= remainder_ns d1 <= 999999)%Z
    /\ (0 <= tv_sec d2 /\ 0 <= timeSpecMS d2 <= 999
        /\ 0 <= remainder_ns d2 <= 999999)%Z.
Proof.
  intros Hcheck Hlen H1 H2 R0 R1 R2 R3 L01 L23.
  assert (Hrange : forall s e, reading s -> reading e -> later s e ->
            (0 <= tv_sec (diff s e) /\ 0 <= timeSpecMS (diff s e) <= 999
             /\ 0 <= remainder_ns (diff s e) <= 999999)%Z).
  { intros s e Hs He Hl.
    assert (Hd : (0 <= tv_sec (diff s e)
                  /\ 0 <= tv_nsec (diff s e) <= 999999999)%Z).
    { rewrite (diff_exact s e Hs He).
      unfold reading, NSEC_PER_SEC, later, borrow_rule in *.
      destruct (Z.ltb_spec (tv_nsec e - tv_nsec s) 0);
        cbn [tv_sec tv_nsec]; lia. }
    destruct Hd as [Hsec Hnsec]. split; [exact Hsec|].
    destruct (printed_parts_bounds (diff s e) Hnsec) as (Hms & Hrem & _).
    split; assumption. }
  rewrite (main_after_check _ _ _ _ _ Hcheck).
  destruct q as [[m tr] clk n out]. cbn [ram mem] in Hlen, H1.
  rewrite (inefficientStringConcat_spec m tr Hlen) in H1.
  apply Ok_inj in H1 as [_ <-].
  rewrite (efficientStringConcat_spec _ _
             ltac:(rewrite rebuilt_length; exact Hlen)) in H2.
  apply Ok_inj in H2 as [_ <-].
  do 3 eexists.
  split; [apply timed_runs_spec, Hlen|]. cbn [ram ticks stdout].
  rewrite rebuilt_idem.
  split; [reflexivity|]. split; [reflexivity|].
  split; [reflexivity|]. split; [reflexivity|].
  split; [rewrite !show_formatted by apply diff_fits; reflexivity|].
  split; apply Hrange; assumption.
Qed.

Lemma main_prints_in_range_witness :
  exists p' d1 d2,
    main idle 1%Z ["schlemiel"] boot = Ok 0%Z p'
    /\ ram p'
       = {| mem := rebuilt (mem (ram boot));
            trace := (rounds_trace efficient_round_trace 10000
                      ++ rounds_trace inefficient_round_trace 10000
                      ++ [])%list |}
    /\ ticks p' = (4 + ticks boot)%nat
    /\ d1 = {| tv_sec := 0; tv_nsec := 333333333 |}
    /\ d2 = {| tv_sec := 0; tv_nsec := 333333334 |}
    /\ stdout p' = stdout boot ++ (show d1 ++ endl) ++ (show d2 ++ endl)
    /\ (0 <= tv_sec d1 /\ 0 <= timeSpecMS d1 <= 999
        /\ 0 <= remainder_ns d1 <= 999999)%Z
    /\ (0 <= tv_sec d2 /\ 0 <= timeSpecMS d2 <= 999
        /\ 0 <= remainder_ns d2 <= 999999)%Z.
Proof.
  assert (Hlen : (STRBUFLEN < length (mem (ram boot)))%nat)
    by (apply Nat.ltb_lt; vm_compute; reflexivity).
  refine (main_prints_in_range idle 1%Z ["schlemiel"] boot boot
            {| mem := rebuilt (mem (ram boot));
               trace := (rounds_trace inefficient_round_trace 10000
                         ++ [])%list |}
            {| mem := rebuilt (mem (ram boot));
               trace := (rounds_trace efficient_round_trace 10000
                         ++ rounds_trace inefficient_round_trace 10000
                         ++ [])%list |}
            eq_refl Hlen _ _ _ _ _ _ _ _).
  - apply inefficientStringConcat_spec, Hlen.
  - rewrite <- (rebuilt_idem (mem (ram boot))) at 2.
    apply efficientStringConcat_spec.
    rewrite rebuilt_length; exact Hlen.
  - unfold reading_at, boot. cbn [clock ticks]. vm_compute.
    repeat split; (reflexivity || discriminate).
  - unfold reading_at, boot. cbn [clock ticks]. vm_compute.
    repeat split; (reflexivity || discriminate).
  - unfold reading_at, boot. cbn [clock ticks]. vm_compute.
    repeat split; (reflexivity || discriminate).
  - unfold reading_at, boot. cbn [clock ticks]. vm_compute.
    repeat split; (reflexivity || discriminate).
  - right. unfold reading_at, boot. cbn [clock ticks]. vm_compute.
    repeat split; (reflexivity || discriminate).
  - left. unfold reading_at, boot. cbn [clock ticks]. vm_compute.
    reflexivity.
Defined.

(** C7 fails on the code.  A run without arguments ([argc = 1], so the
    unfinished statement is not reached) on a storage that ends with the
    array does not return 0: the first benchmark faults at offset 1024,
    [timeOperation] and [main] end there, and [return 0] is not reached.
    This is the store behind the array of C3. *)
Theorem main_can_fail :
  inefficientStringConcat (ram bare) = Fault STRBUFLEN
  /\ timeOperation inefficientStringConcat bare = Fault STRBUFLEN
  /\ forall unfinished argv, main unfinished 1%Z argv bare = Fault STRBUFLEN.
Proof.
  assert (Hlen : length (mem (ram bare)) = STRBUFLEN)
    by apply length_replicate.
  pose proof (proj1 (array_alone_faults (ram bare) Hlen)) as Hrun.
  split; [exact Hrun|]. split.
  - unfold timeOperation, bind, getTime, call.
    cbn [ram clock ticks stdout]. rewrite Hrun. reflexivity.
  - intros unfinished argv.
    rewrite (main_after_check unfinished 1%Z argv bare bare eq_refl).
    apply timed_runs_need_slack, Hlen.
Qed.

End RunnerFacts.
